(** * NumberArrayCompressor: a shallow embedding of src/NumberArrayCompressor.js

    The class [NumberArrayCompressor] serialises arrays of integers of the
    range 1..300 to printable strings with three competing strategies
    (run-length, bit-packed frequency table, direct enumeration) and
    decodes them again.

    Conventions of the embedding.
    - JavaScript numbers are binary64 floating-point numbers. The codec is
      modelled on exact integers, [Z], which is what the source computes
      as long as every number stays below 2^53 in absolute value and no
      array grows to 2^32 elements; statements that reach beyond the range
      1..300 of the class say so in a hypothesis. The scalar codec is
      modelled a second time with the roundings of binary64
      ([encodeNumber64], [decodeNumber64]), and the two are proved equal
      below 2^53.
    - JavaScript strings are modelled as [list ascii]; every character the
      encoders emit is ASCII.
    - The strings of the characters '0' and '1' built with [toString(2)]
      are modelled as [list bool] ([true] is '1'); the class never builds
      one from a negative number.
    - The caller's array is the only mutable object: an encoder is a
      function from the contents of that array to its result and the
      contents after the call. *)

From Stdlib Require Import ZArith Ascii String Lia.
From stdpp Require Import base numbers list sorting strings gmap.

Local Open Scope Z_scope.

(** ** Strings *)

Abbreviation str := (list ascii).

(** [s.indexOf(c)] for a one-character [c]: the first position, or -1. *)
Fixpoint indexOf_from (s : str) (c : ascii) (i : Z) : Z :=
  match s with
  | [] => -1
  | x :: s' => if decide (x = c) then i else indexOf_from s' c (i + 1)
  end.

Definition indexOf (s : str) (c : ascii) : Z := indexOf_from s c 0.

(** [s[i]]: [None] stands for [undefined]. *)
Definition char_at (s : str) (i : Z) : option ascii :=
  if decide (0 ≤ i) then s !! Z.to_nat i else None.

(** What [x + string] makes of [x = s[i]]. *)
Definition to_str (o : option ascii) : str :=
  match o with
  | Some c => [c]
  | None => list_ascii_of_string "undefined"
  end.

(** [s.includes(c)] for a one-character [c]. *)
Definition includes (s : str) (c : ascii) : bool := bool_decide (c ∈ s).

(** [s.split(sep)] for a one-character separator; [''.split(sep)] is ['']. *)
Fixpoint split (sep : ascii) (s : str) : list str :=
  match s with
  | [] => [[]]
  | x :: s' =>
      if decide (x = sep) then [] :: split sep s'
      else match split sep s' with
           | [] => [[x]]
           | h :: t => (x :: h) :: t
           end
  end.

(** [s.slice(a)] and [s.slice(a, b)], with JavaScript's treatment of
    negative and oversized positions. *)
Definition slice_pos {A} (s : list A) (i : Z) : Z :=
  if decide (i < 0) then Z.max (Z.of_nat (length s) + i) 0
  else Z.min i (Z.of_nat (length s)).

Definition slice_from {A} (s : list A) (a : Z) : list A :=
  drop (Z.to_nat (slice_pos s a)) s.

Definition slice {A} (s : list A) (a b : Z) : list A :=
  take (Z.to_nat (slice_pos s b - slice_pos s a))
       (drop (Z.to_nat (slice_pos s a)) s).

(** ** The constructor: alphabet and base *)

Definition SEP : ascii := ","%char.
Definition TERM : ascii := ";"%char.

(** [Array.from({length: 126 - 33}, (_, i) => String.fromCharCode(i+33))
      .filter(char => !',;'.includes(char)).join('')] *)
Definition alphabet : str :=
  List.filter (λ char, negb (includes [SEP; TERM] char))
    ((λ i, ascii_of_nat (i + 33)) <$> seq 0 (126 - 33)).

(** [this.base = this.alphabet.length] *)
Definition base : Z := Z.of_nat (length alphabet).

(** ** Scalar codec *)

(** The loop [while (num > 0)] of [encodeNumber]; it divides [num] by the
    base at every turn, so the binary size of [num] bounds its turns. *)
Fixpoint encodeNumber_loop (fuel : nat) (num : Z) (result : str) : str :=
  match fuel with
  | O => result
  | S fuel' =>
      if decide (0 < num)
      then encodeNumber_loop fuel' (num `div` base)
             (to_str (char_at alphabet (num `rem` base)) ++ result)
      else result
  end.

Definition encodeNumber (num : Z) : str :=
  if decide (num = 0) then to_str (char_at alphabet 0)
  else encodeNumber_loop (S (Z.to_nat (Z.log2 num))) num [].

Definition decodeNumber (s : str) : Z :=
  fold_left (λ result char, result * base + indexOf alphabet char) s 0.

(** ** Scalar codec as binary64 arithmetic computes it

    A JavaScript number is a binary64 floating-point number. The
    definitions above compute with exact integers; those below follow the
    roundings of the source, [Math.floor(num / this.base)] and
    [result * this.base + this.alphabet.indexOf(char)], on the integers a
    binary64 number can hold. The two agree as long as every number stays
    below 2^53 (lemmas [encodeNumber64_exact] and [decodeNumber64_exact]). *)

(** The integer nearest to [n / d], the even one on a tie, for [0 ≤ n] and
    [0 < d]. *)
Definition round_half_even (n d : Z) : Z :=
  let q := n `div` d in
  let r := n `mod` d in
  if decide (2 * r < d) then q
  else if decide (d < 2 * r) then q + 1
  else if Z.even q then q else q + 1.

(** The integer part of the binary logarithm of [n / d], for [0 < n] and
    [0 < d]. *)
Definition log2_ratio (n d : Z) : Z :=
  let k := Z.log2 n - Z.log2 d in
  if decide (0 ≤ k)
  then (if decide (n < d * 2 ^ k) then k - 1 else k)
  else (if decide (n * 2 ^ (- k) < d) then k - 1 else k).

(** The binary64 number nearest to [n / d], ties to even, as a mantissa [m]
    of 53 bits and an exponent [e]: its value is [m * 2^e]. The exponent
    is not bounded here. *)
Definition nearest64 (n d : Z) : Z * Z :=
  let e := log2_ratio n d - 52 in
  let m := if decide (0 ≤ e) then round_half_even n (d * 2 ^ e)
           else round_half_even (n * 2 ^ (- e)) d in
  (m, e).

(** The integer part of [m * 2^e]. *)
Definition floor_scaled (m e : Z) : Z :=
  if decide (0 ≤ e) then m * 2 ^ e else m `div` 2 ^ (- e).

(** [Math.floor(num / d)] for an integer [num ≥ 0] and [0 < d ≤ 2^53]:
    the quotient is rounded to binary64 before [Math.floor] sees it. *)
Definition floor_div64 (num d : Z) : Z :=
  if decide (num = 0) then 0
  else let '(m, e) := nearest64 num d in floor_scaled m e.

(** The binary64 value of an operation whose exact result is the integer
    [z]; [None] stands for an infinite value, on overflow. *)
Definition round64 (z : Z) : option Z :=
  if decide (z = 0) then Some 0
  else
    let '(m, e) := nearest64 (Z.abs z) 1 in
    let v := floor_scaled m e in
    if decide (2 ^ 1024 ≤ v) then None else Some (Z.sgn z * v).

(** The loop of [encodeNumber] on a binary64 integer [num]; [None] if the
    fuel runs out before the loop ends. *)
Fixpoint encodeNumber64_loop (fuel : nat) (num : Z) (result : str)
    : option str :=
  match fuel with
  | O => if decide (0 < num) then None else Some result
  | S fuel' =>
      if decide (0 < num)
      then encodeNumber64_loop fuel' (floor_div64 num base)
             (to_str (char_at alphabet (num `rem` base)) ++ result)
      else Some result
  end.

Definition encodeNumber64 (num : Z) : option str :=
  if decide (num = 0) then Some (to_str (char_at alphabet 0))
  else encodeNumber64_loop (S (Z.to_nat (Z.log2 num))) num [].

(** [result = result * this.base + this.alphabet.indexOf(char)]: the
    product is rounded, then the sum. An infinite value stays infinite. *)
Definition decode_step64 (result : option Z) (char : ascii) : option Z :=
  r ← result;
  product ← round64 (r * base);
  round64 (product + indexOf alphabet char).

Definition decodeNumber64 (s : str) : option Z :=
  fold_left decode_step64 s (Some 0).

(** ** Arrays and bit strings *)

(** [a.sort((a, b) => a - b)]: ascending numeric order. *)
Definition sort_numbers (a : list Z) : list Z := merge_sort Z.le a.

(** [n.toString(2)] for [0 ≤ n], most significant digit first. *)
Fixpoint pos_digits (p : positive) : list bool :=
  match p with
  | xH => [true]
  | xO p' => pos_digits p' ++ [false]
  | xI p' => pos_digits p' ++ [true]
  end.

Definition toString2 (n : Z) : list bool :=
  match n with
  | Zpos p => pos_digits p
  | _ => [false]
  end.

(** [s.padStart(w, '0')] and [s.padEnd(w, '0')] *)
Definition padStart (w : nat) (s : list bool) : list bool :=
  replicate (w - length s) false ++ s.

Definition padEnd (w : nat) (s : list bool) : list bool :=
  s ++ replicate (w - length s) false.

(** [parseInt(s, 2)] on a non-empty string of binary digits. *)
Definition parseInt2 (s : list bool) : Z :=
  fold_left (λ n (b : bool), 2 * n + (if b then 1 else 0)) s 0.

(** ** Run-length strategy *)

(** The [for] loop of [encodeRunLength] from index [i]: [prev] is
    [sorted[i - 1]] and [rest] is [sorted] from index [i] on. *)
Fixpoint runs_loop (prev : Z) (rest : list Z) (start length : Z)
    (runs : list (Z * Z)) : list (Z * Z) :=
  match rest with
  | [] => runs ++ [(start, length)]
  | x :: rest' =>
      if decide (x = prev + 1)
      then runs_loop x rest' start (length + 1) runs
      else runs_loop x rest' x 1 (runs ++ [(start, length)])
  end.

(** [encoded += this.encodeNumber(start) + ',' + this.encodeNumber(len) + ';'] *)
Definition encode_run (encoded : str) (run : Z * Z) : str :=
  encoded ++ encodeNumber run.1 ++ [SEP] ++ encodeNumber run.2 ++ [TERM].

(** The result and the contents of [numbers] after the call:
    [numbers.sort] sorts the caller's array in place. *)
Definition encodeRunLength (numbers : list Z) : str * list Z :=
  if decide (length numbers = 0%nat) then ([], numbers)
  else
    let sorted := sort_numbers numbers in
    match sorted with
    | [] =>
        (* not reached, the array is not empty: [sorted[0]] would be
           [undefined], which [encodeNumber] turns into the empty string *)
        (["R"%char; SEP] ++ encodeNumber 1 ++ [TERM], sorted)
    | first :: rest =>
        let runs := runs_loop first rest first 1 [] in
        (fold_left encode_run runs ["R"%char], sorted)
    end.

(** ** Bit-packed frequency strategy *)

Definition bitsPerNumber : nat := 9.
Definition bitsPerCount : nat := 8.

(** [if (num >= 1 && num <= 300) freq[num] = (freq[num] || 0) + 1] *)
Definition freq_step (freq : gmap Z Z) (num : Z) : gmap Z Z :=
  if decide (1 ≤ num ∧ num ≤ 300)
  then <[num := default 0 (freq !! num) + 1]> freq
  else freq.

(** [bitString += numBits + countBits] for the entry [[num, count]]. *)
Definition entry_bits (bitString : list bool) (entry : Z * Z) : list bool :=
  bitString
  ++ padStart bitsPerNumber (toString2 (entry.1 - 1))
  ++ padStart bitsPerCount (toString2 (Z.min entry.2 255)).

(** The loop [for (let i = 0; i < bitString.length; i += 6)]; it runs at
    most [bitString.length] turns. A chunk is the character
    [alphabet[value]], or [None] for [undefined]. *)
Fixpoint chunks_loop (fuel : nat) (bitString : list bool) (i : Z)
    (chunks : list (option ascii)) : list (option ascii) :=
  match fuel with
  | O => chunks
  | S fuel' =>
      if decide (i < Z.of_nat (length bitString))
      then
        let chunk := padEnd 6 (slice bitString i (i + 6)) in
        let value := parseInt2 chunk in
        chunks_loop fuel' bitString (i + 6)
          (chunks ++ [char_at alphabet value])
      else chunks
  end.

(** [chunks.join('')]: an [undefined] element joins as the empty string. *)
Definition join (chunks : list (option ascii)) : str :=
  chunks ≫= (λ o, match o with Some c => [c] | None => [] end).

(** The frequency map [freq] after the first loop of [encodeBitPacking]. *)
Definition freq_of (numbers : list Z) : gmap Z Z :=
  fold_left freq_step numbers ∅.

(** The comparator [(a, b) => a[0] - b[0]] of [entries.sort]. *)
Definition entry_le (a b : Z * Z) : Prop := a.1 ≤ b.1.

#[global] Instance entry_le_dec : RelDecision entry_le.
Proof. intros a b. unfold entry_le. apply _. Defined.

(** [Object.entries(freq)], with the keys parsed back to numbers, sorted. *)
Definition entries_of (numbers : list Z) : list (Z * Z) :=
  merge_sort entry_le (map_to_list (freq_of numbers)).

(** The result and the array, which [encodeBitPacking] only reads. *)
Definition encodeBitPacking (numbers : list Z) : str * list Z :=
  if decide (length numbers = 0%nat) then (["B"%char], numbers)
  else
    let entries := entries_of numbers in
    let bitString := fold_left entry_bits entries [] in
    let chunks := chunks_loop (length bitString) bitString 0 [] in
    (["B"%char] ++ encodeNumber (Z.of_nat (length entries)) ++ [SEP]
       ++ join chunks, numbers).

(** ** Direct strategy *)

(** [encoded += this.encodeNumber(num) + ','] *)
Definition encode_one (encoded : str) (num : Z) : str :=
  encoded ++ encodeNumber num ++ [SEP].

(** [[...numbers].sort] sorts a copy: [numbers] is left as it was. *)
Definition encodeDirect (numbers : list Z) : str * list Z :=
  let unique := sort_numbers numbers in
  (fold_left encode_one unique ["D"%char], numbers).

(** ** Facade: serialize *)

(** [current.length < shortest.length ? current : shortest] *)
Definition shorter (shortest current : str) : str :=
  if decide (length current < length shortest)%nat then current else shortest.

(** [numbers] is [None] for [null] or [undefined]. The second component is
    the caller's array after the call. *)
Definition serialize (numbers : option (list Z)) : str * option (list Z) :=
  match numbers with
  | None => (["E"%char], None)
  | Some ns =>
      if decide (length ns = 0%nat) then (["E"%char], Some ns)
      else
        let '(runLength, ns1) := encodeRunLength ns in
        let '(bitPacking, ns2) := encodeBitPacking ns1 in
        let '(direct, ns3) := encodeDirect ns2 in
        let candidates := [direct; runLength; bitPacking] in
        (fold_left shorter candidates direct, Some ns3)
  end.

(** ** Decoders *)

Definition nonempty (p : str) : bool := bool_decide (0 < length p)%nat.

Definition decode_run (part : str) : list Z :=
  match split SEP part with
  | field0 :: field1 :: _ =>
      let start := decodeNumber field0 in
      let length := decodeNumber field1 in
      (λ j, start + j) <$> seqZ 0 length
  | _ => []
  end.

Definition decodeRunLength (data : str) : list Z :=
  let parts := List.filter nonempty (split TERM data) in
  parts ≫= decode_run.

(** The body of the first loop of [decodeBitPacking]. *)
Definition unpack_char (bitString : list bool) (char : ascii) : list bool :=
  let value := indexOf alphabet char in
  if decide (value ≠ -1) then bitString ++ padStart 6 (toString2 value)
  else bitString.

(** The body of its second loop, for entry [i]. *)
Definition decode_entry (bitString : list bool) (i : Z) : list Z :=
  let bitsPerEntry := Z.of_nat bitsPerNumber + Z.of_nat bitsPerCount in
  let start := i * bitsPerEntry in
  let numEnd := start + Z.of_nat bitsPerNumber in
  let countEnd := numEnd + Z.of_nat bitsPerCount in
  if decide (countEnd ≤ Z.of_nat (length bitString)) then
    let numberBits := slice bitString start numEnd in
    let countBits := slice bitString numEnd countEnd in
    let num := parseInt2 numberBits + 1 in
    let count := parseInt2 countBits in
    if decide (1 ≤ num ∧ num ≤ 300 ∧ 0 < count)
    then replicate (Z.to_nat count) num
    else []
  else [].

Definition decodeBitPacking (data : str) : list Z :=
  if decide (data = []) then []
  else
    let commaPos := indexOf data SEP in
    if decide (commaPos = -1) then []
    else
      let countStr := slice data 0 commaPos in
      let packedData := slice_from data (commaPos + 1) in
      let entryCount := decodeNumber countStr in
      if decide (entryCount = 0) then []
      else
        let bitString := fold_left unpack_char packedData [] in
        let numbers := seqZ 0 entryCount ≫= decode_entry bitString in
        sort_numbers numbers.

Definition decode_part (part : str) : list Z :=
  let num := decodeNumber part in
  if decide (1 ≤ num ∧ num ≤ 300) then [num] else [].

Definition decodeDirect (data : str) : list Z :=
  let parts := List.filter nonempty (split SEP data) in
  parts ≫= decode_part.

(** ** Facade: deserialize *)

(** A JavaScript [Error] with its message. *)
Inductive js_error : Type := Error (message : string).

Definition InvalidEncoding : js_error := Error "Invalid encoding method".

(** The outcome of a call: a returned value or a thrown error. *)
Inductive outcome (A : Type) : Type :=
  | Return (value : A)
  | Throw (e : js_error).
Arguments Return {A} value.
Arguments Throw {A} e.

(** [encoded] is [None] for [null] or [undefined]. *)
Definition deserialize (encoded : option str) : outcome (list Z) :=
  match encoded with
  | None => Return []
  | Some [] => Return []
  | Some (method :: data) =>
      if decide (method :: data = ["E"%char]) then Return []
      else if decide (method = "R"%char) then Return (decodeRunLength data)
      else if decide (method = "B"%char) then Return (decodeBitPacking data)
      else if decide (method = "D"%char) then Return (decodeDirect data)
      else Throw InvalidEncoding
  end.

(** ** TestSuite.runTest: the round-trip check *)

(** [originalSet.every((n, i) => n === decompressedSet[i])] from index [i]
    on; an index past the end of [decompressedSet] reads [undefined], which
    is no number. *)
Fixpoint every_from (i : nat) (originalSet decompressedSet : list Z) : bool :=
  match originalSet with
  | [] => true
  | n :: rest =>
      bool_decide (decompressedSet !! i = Some n)
      && every_from (S i) rest decompressedSet
  end.

(** The field [correct] of the result of [runTest(name, numbers)] on an
    array. The console output and the compression ratio, a floating-point
    number, are left out. An array has no property [size], so
    [originalSet.size === decompressedSet.size] compares [undefined] with
    [undefined] and holds. An error of [deserialize] is not caught. *)
Definition runTest_correct (numbers : list Z) : outcome bool :=
  let '(compressed, after) := serialize (Some numbers) in
  match deserialize (Some compressed) with
  | Throw e => Throw e
  | Return decompressed =>
      let originalSet := sort_numbers (default [] after) in
      let decompressedSet := sort_numbers decompressed in
      Return (true && every_from 0 originalSet decompressedSet)
  end.

(** ** Vocabulary of the statements *)

(** One turn of the loop of [decodeNumber]. *)
Definition decode_step (result : Z) (char : ascii) : Z :=
  result * base + indexOf alphabet char.

(** The range check [num >= 1 && num <= 300] of the class. *)
Definition in_range (x : Z) : Prop := 1 ≤ x ∧ x ≤ 300.

(** How often [x] occurs in [xs]. *)
Definition occurrences (x : Z) (xs : list Z) : Z :=
  Z.of_nat (length (filter (λ y, y = x) xs)).

(** The record [encodeRunLength] writes for a run, and the numbers
    [decodeRunLength] pushes for it. *)
Definition run_record (run : Z * Z) : str :=
  encodeNumber run.1 ++ [SEP] ++ encodeNumber run.2 ++ [TERM].

Definition expand_run (run : Z * Z) : list Z := seqZ run.1 run.2.

(** A run of a non-empty array of non-negative numbers. *)
Definition good_run (run : Z * Z) : Prop := 0 ≤ run.1 ∧ 1 ≤ run.2.

(** A run that ends at 2^53 at most: the numbers [start + j] of its
    expansion are computed without rounding. *)
Definition bounded_run (run : Z * Z) : Prop :=
  0 ≤ run.1 ∧ 1 ≤ run.2 ∧ run.1 + run.2 ≤ 2 ^ 53.

(** How many numbers the runs hold in all. *)
Definition total_length (runs : list (Z * Z)) : Z :=
  foldr (λ run n, run.2 + n) 0 runs.

(** The record [encodeDirect] writes for a number. *)
Definition number_record (num : Z) : str := encodeNumber num ++ [SEP].

(** The bit string [decodeBitPacking] rebuilds from the packed characters. *)
Definition unpack (packedData : str) : list bool :=
  fold_left unpack_char packedData [].

(** The bits [encodeBitPacking] writes for an entry, and the numbers
    [decodeBitPacking] pushes for it. *)
Definition entry_record (entry : Z * Z) : list bool :=
  padStart bitsPerNumber (toString2 (entry.1 - 1))
  ++ padStart bitsPerCount (toString2 (Z.min entry.2 255)).

Definition expand_entry (entry : Z * Z) : list Z :=
  replicate (Z.to_nat entry.2) entry.1.

(** An entry the fixed-width fields hold without loss. *)
Definition good_entry (entry : Z * Z) : Prop :=
  in_range entry.1 ∧ 1 ≤ entry.2 ≤ 255.

(** The markers of the four encodings. *)
Definition markers : str := ["E"; "R"; "B"; "D"]%char.

(** The range check is decidable. *)
#[global] Instance in_range_dec (x : Z) : Decision (in_range x).
Proof. unfold in_range. apply _. Defined.

(** A character of a payload: a digit of the alphabet or a delimiter. *)
Definition payload_char (c : ascii) : Prop :=
  c ∈ alphabet ∨ c = SEP ∨ c = TERM.

(** A string of digits as [encodeNumber] writes one: not empty, and with
    no leading zero digit unless it is the zero digit alone. *)
Definition canonical (s : str) : Prop :=
  Forall (.∈ alphabet) s ∧
  match s with
  | [] => False
  | [_] => True
  | c :: _ => indexOf alphabet c ≠ 0
  end.

(** An entry as the 8-bit count field holds it. *)
Definition clamp_entry (entry : Z * Z) : Z * Z :=
  (entry.1, Z.min entry.2 255).

(** The characters after the marker, [encoded.slice(1)]. *)
Definition payload (encoded : str) : str := slice_from encoded 1.

(** The packed characters of a bit-packed payload, after its separator. *)
Definition packed_of (data : str) : str :=
  slice_from data (indexOf data SEP + 1).

(** * Properties *)

(** ** Strings *)

Lemma indexOf_from_lookup (s : str) (c : ascii) (i : nat) (k : Z) :
  NoDup s → s !! i = Some c → indexOf_from s c k = k + Z.of_nat i.
Proof.
  revert i k. induction s as [|x s IH]; intros i k Hnd Hi; [done|].
  apply NoDup_cons in Hnd as [Hx Hnd]. simpl.
  destruct i as [|i]; simpl in Hi.
  - simplify_eq. rewrite decide_True by done. lia.
  - rewrite decide_False.
    + rewrite (IH i) by done. lia.
    + intros ->. apply Hx. by eapply list_elem_of_lookup_2.
Qed.

Lemma indexOf_from_notin (s : str) (c : ascii) (k : Z) :
  c ∉ s → indexOf_from s c k = -1.
Proof.
  revert k. induction s as [|x s IH]; intros k Hc; [done|].
  apply not_elem_of_cons in Hc as [Hx Hc]. simpl.
  rewrite decide_False by done. by apply IH.
Qed.

Lemma indexOf_from_range (s : str) (c : ascii) (k : Z) :
  0 ≤ k →
  indexOf_from s c k = -1 ∨
  (k ≤ indexOf_from s c k < k + Z.of_nat (length s) ∧ c ∈ s).
Proof.
  revert k. induction s as [|x s IH]; intros k Hk; [by left|].
  cbn [indexOf_from]. rewrite length_cons, Nat2Z.inj_succ.
  destruct (decide (x = c)) as [->|Hx].
  - right. split; [lia|]. left.
  - destruct (IH (k + 1) ltac:(lia)) as [->|[? ?]]; [by left|].
    right. split; [lia|]. by right.
Qed.

Lemma indexOf_first (s t : str) (c : ascii) :
  c ∉ s → indexOf (s ++ c :: t) c = Z.of_nat (length s).
Proof.
  intros Hc. unfold indexOf.
  enough (∀ k, indexOf_from (s ++ c :: t) c k = k + Z.of_nat (length s))
    as -> by done.
  induction s as [|x s IH]; intros k; cbn [app indexOf_from].
  - rewrite decide_True by done. simpl. lia.
  - apply not_elem_of_cons in Hc as [Hx Hc].
    rewrite decide_False by done. rewrite IH, length_cons by done. lia.
Qed.

Lemma split_nonnil (sep : ascii) (s : str) : split sep s ≠ [].
Proof.
  destruct s as [|x s]; simpl; [done|].
  destruct (decide (x = sep)); [done|]. by destruct (split sep s).
Qed.

Lemma split_notin (sep : ascii) (s : str) : sep ∉ s → split sep s = [s].
Proof.
  induction s as [|x s IH]; intros Hs; [done|].
  apply not_elem_of_cons in Hs as [Hx Hs]. simpl.
  rewrite decide_False by done. by rewrite IH.
Qed.

Lemma split_app (sep : ascii) (s t : str) :
  sep ∉ s → split sep (s ++ sep :: t) = s :: split sep t.
Proof.
  induction s as [|x s IH]; intros Hs; simpl.
  - by rewrite decide_True.
  - apply not_elem_of_cons in Hs as [Hx Hs].
    rewrite decide_False by done. by rewrite IH.
Qed.

Section slices.
Context {A : Type}.
Implicit Types (s : list A) (a b : Z).

Lemma slice_take_drop s a b :
  0 ≤ a ≤ b → b ≤ Z.of_nat (length s) →
  slice s a b = take (Z.to_nat (b - a)) (drop (Z.to_nat a) s).
Proof.
  intros Hab Hb. unfold slice, slice_pos.
  rewrite !decide_False by lia. by rewrite !Z.min_l by lia.
Qed.

(** An end position past the end of the string is the end of the string. *)
Lemma slice_clamped s a b :
  0 ≤ a ≤ b → a ≤ Z.of_nat (length s) →
  slice s a b = take (Z.to_nat (b - a)) (drop (Z.to_nat a) s).
Proof.
  intros Hab Ha. unfold slice, slice_pos. rewrite !decide_False by lia.
  rewrite (Z.min_l a) by lia.
  destruct (decide (b ≤ Z.of_nat (length s))).
  - by rewrite Z.min_l by lia.
  - rewrite Z.min_r by lia. rewrite !take_ge; [done| |];
      rewrite length_drop; lia.
Qed.

Lemma slice_from_drop s a :
  0 ≤ a ≤ Z.of_nat (length s) → slice_from s a = drop (Z.to_nat a) s.
Proof.
  intros Ha. unfold slice_from, slice_pos.
  rewrite decide_False by lia. by rewrite Z.min_l by lia.
Qed.

(** [encoded.slice(1)] is the payload after the marker. *)
Lemma slice_from_1 (x : A) s : slice_from (x :: s) 1 = s.
Proof.
  rewrite slice_from_drop by (rewrite length_cons; lia).
  change (Z.to_nat 1) with 1%nat. cbn [skipn]. apply drop_0.
Qed.

End slices.

(** ** The alphabet *)

Lemma alphabet_length : length alphabet = 91%nat.
Proof. by vm_compute. Qed.

Lemma base_eq : base = 91.
Proof. unfold base. by rewrite alphabet_length. Qed.

Lemma alphabet_NoDup : NoDup alphabet.
Proof. apply (bool_decide_unpack _). by vm_compute. Qed.

Lemma alphabet_no_SEP : SEP ∉ alphabet.
Proof. apply (bool_decide_unpack _). by vm_compute. Qed.

Lemma alphabet_no_TERM : TERM ∉ alphabet.
Proof. apply (bool_decide_unpack _). by vm_compute. Qed.

Lemma char_at_alphabet (i : Z) :
  0 ≤ i < base →
  ∃ c, char_at alphabet i = Some c ∧ c ∈ alphabet ∧ indexOf alphabet c = i.
Proof.
  rewrite base_eq. intros Hi. unfold char_at. rewrite decide_True by lia.
  destruct (lookup_lt_is_Some_2 alphabet (Z.to_nat i)) as [c Hc].
  { rewrite alphabet_length. lia. }
  exists c. split; [done|]. split; [by eapply list_elem_of_lookup_2|].
  unfold indexOf. rewrite (indexOf_from_lookup _ _ (Z.to_nat i)); [lia| |done].
  apply alphabet_NoDup.
Qed.

Lemma indexOf_alphabet_range (c : ascii) : -1 ≤ indexOf alphabet c < base.
Proof.
  rewrite base_eq. unfold indexOf.
  destruct (indexOf_from_range alphabet c 0) as [->|[Hr _]]; [done|lia|].
  rewrite alphabet_length in Hr. lia.
Qed.

(** ** Scalar codec *)

Lemma decodeNumber_fold (s : str) :
  decodeNumber s = fold_left decode_step s 0.
Proof. reflexivity. Qed.

Lemma decodeNumber_snoc (s : str) (c : ascii) :
  decodeNumber (s ++ [c]) = decodeNumber s * base + indexOf alphabet c.
Proof. unfold decodeNumber. by rewrite fold_left_app. Qed.

Lemma encodeNumber_digit (num : Z) :
  0 < num →
  ∃ c, to_str (char_at alphabet (num `rem` base)) = [c] ∧ c ∈ alphabet ∧
       indexOf alphabet c = num `mod` base.
Proof.
  intros Hnum. rewrite Z.rem_mod_nonneg by (rewrite ?base_eq; lia).
  destruct (char_at_alphabet (num `mod` base)) as (c & -> & Hc & Hi).
  { apply Z.mod_pos_bound. by rewrite base_eq. }
  by exists c.
Qed.

(** Enough fuel: the loop has consumed [num] when it stops. *)
Lemma encodeNumber_loop_decode (fuel : nat) (num : Z) (result : str) :
  0 ≤ num < 2 ^ Z.of_nat fuel →
  fold_left decode_step (encodeNumber_loop fuel num result) 0
  = fold_left decode_step result num.
Proof.
  revert num result. induction fuel as [|fuel IH]; intros num result Hnum.
  - simpl in *. by replace num with 0 by lia.
  - cbn [encodeNumber_loop]. destruct (decide (0 < num)) as [Hpos|Hpos].
    + destruct (encodeNumber_digit num Hpos) as (c & -> & _ & Hc).
      rewrite IH.
      * cbn [app fold_left]. unfold decode_step at 2. rewrite Hc.
        f_equal. pose proof (Z.div_mod num base). rewrite base_eq in *. lia.
      * rewrite Nat2Z.inj_succ, Z.pow_succ_r in Hnum by lia.
        rewrite base_eq. split; [apply Z.div_pos; lia|].
        apply Z.div_lt_upper_bound; lia.
    + by replace num with 0 by lia.
Qed.

(** Fuel beyond the binary size of [num] is never used: the loop has
    stopped on [num > 0] being false. *)
Lemma encodeNumber_loop_fuel (fuel extra : nat) (num : Z) (result : str) :
  0 ≤ num < 2 ^ Z.of_nat fuel →
  encodeNumber_loop (fuel + extra) num result
  = encodeNumber_loop fuel num result.
Proof.
  revert num result. induction fuel as [|fuel IH]; intros num result Hnum.
  - simpl in Hnum. replace num with 0 by lia. by destruct extra.
  - cbn [Nat.add encodeNumber_loop]. case_decide; [|done].
    apply IH. rewrite Nat2Z.inj_succ, Z.pow_succ_r in Hnum by lia.
    rewrite base_eq. split; [apply Z.div_pos; lia|].
    apply Z.div_lt_upper_bound; lia.
Qed.

Lemma encodeNumber_loop_alphabet (fuel : nat) (num : Z) (result : str) :
  Forall (.∈ alphabet) result →
  Forall (.∈ alphabet) (encodeNumber_loop fuel num result).
Proof.
  revert num result. induction fuel as [|fuel IH]; intros num result Hres.
  - done.
  - cbn [encodeNumber_loop]. destruct (decide (0 < num)) as [Hpos|Hpos]; [|done].
    destruct (encodeNumber_digit num Hpos) as (c & -> & Hc & _).
    apply IH. by constructor.
Qed.

Lemma encodeNumber_loop_length (fuel : nat) (num : Z) (result : str) :
  (length result ≤ length (encodeNumber_loop fuel num result))%nat.
Proof.
  revert num result. induction fuel as [|fuel IH]; intros num result; [done|].
  cbn [encodeNumber_loop]. destruct (decide (0 < num)) as [Hpos|Hpos]; [|done].
  destruct (encodeNumber_digit num Hpos) as (c & -> & _ & _).
  etrans; [|apply IH]. simpl. lia.
Qed.

Lemma log2_fuel (num : Z) :
  0 < num → 0 ≤ num < 2 ^ Z.of_nat (S (Z.to_nat (Z.log2 num))).
Proof.
  intros Hnum. split; [lia|].
  rewrite Nat2Z.inj_succ, Z2Nat.id by apply Z.log2_nonneg.
  by apply Z.log2_spec.
Qed.

Lemma decode_encode (n : Z) : 0 ≤ n → decodeNumber (encodeNumber n) = n.
Proof.
  intros Hn. unfold encodeNumber. destruct (decide (n = 0)) as [->|Hne].
  - reflexivity.
  - rewrite decodeNumber_fold, encodeNumber_loop_decode; [done|].
    apply log2_fuel. lia.
Qed.

Lemma encodeNumber_alphabet (n : Z) : Forall (.∈ alphabet) (encodeNumber n).
Proof.
  unfold encodeNumber. destruct (decide (n = 0)) as [->|Hne].
  - apply (bool_decide_unpack _). by vm_compute.
  - by apply encodeNumber_loop_alphabet.
Qed.

Lemma encodeNumber_nonempty (n : Z) : 0 ≤ n → encodeNumber n ≠ [].
Proof.
  intros Hn. unfold encodeNumber. destruct (decide (n = 0)) as [->|Hne]; [done|].
  cbn [encodeNumber_loop]. rewrite decide_True by lia.
  destruct (encodeNumber_digit n) as (c & -> & _ & _); [lia|].
  intros Heq. pose proof (encodeNumber_loop_length (Z.to_nat (Z.log2 n))
    (n `div` base) ([c] ++ [])) as Hlen.
  rewrite Heq in Hlen. simpl in Hlen. lia.
Qed.

Lemma encodeNumber_no_SEP (n : Z) : SEP ∉ encodeNumber n.
Proof.
  intros Hin. apply alphabet_no_SEP.
  by apply (proj1 (Forall_forall _ _) (encodeNumber_alphabet n)).
Qed.

Lemma encodeNumber_no_TERM (n : Z) : TERM ∉ encodeNumber n.
Proof.
  intros Hin. apply alphabet_no_TERM.
  by apply (proj1 (Forall_forall _ _) (encodeNumber_alphabet n)).
Qed.

(** ** Sorting *)

Lemma sort_numbers_perm (a : list Z) : sort_numbers a ≡ₚ a.
Proof. apply merge_sort_Permutation. Qed.

Lemma sort_numbers_sorted (a : list Z) : StronglySorted Z.le (sort_numbers a).
Proof. apply StronglySorted_merge_sort; apply _. Qed.

Lemma sort_numbers_unique (a b : list Z) :
  StronglySorted Z.le b → b ≡ₚ a → sort_numbers a = b.
Proof.
  intros Hb Hab. apply (StronglySorted_unique Z.le).
  - apply sort_numbers_sorted.
  - done.
  - by rewrite sort_numbers_perm.
Qed.

Lemma sort_numbers_Forall (P : Z → Prop) (a : list Z) :
  Forall P a → Forall P (sort_numbers a).
Proof. by rewrite sort_numbers_perm. Qed.

Lemma sort_numbers_length (a : list Z) : length (sort_numbers a) = length a.
Proof. by rewrite sort_numbers_perm. Qed.

(** ** Run-length strategy *)

Lemma seqZ_one (x : Z) : seqZ x 1 = [x].
Proof. reflexivity. Qed.

Lemma fold_encode_run (runs : list (Z * Z)) (encoded : str) :
  fold_left encode_run runs encoded = encoded ++ (runs ≫= run_record).
Proof.
  revert encoded. induction runs as [|r runs IH]; intros encoded; simpl.
  - by rewrite app_nil_r.
  - rewrite IH. unfold encode_run, run_record. by rewrite <-!(assoc_L (++)).
Qed.

Lemma runs_loop_expand (rest : list Z) (prev start length : Z)
    (runs : list (Z * Z)) :
  1 ≤ length → prev = start + length - 1 →
  runs_loop prev rest start length runs ≫= expand_run
  = (runs ≫= expand_run) ++ seqZ start length ++ rest.
Proof.
  revert prev start length runs.
  induction rest as [|x rest IH]; intros prev start length runs Hlen Hprev;
    cbn [runs_loop].
  - rewrite bind_app. cbn [mbind list_bind]. unfold expand_run. cbn [fst snd].
    by rewrite !app_nil_r.
  - destruct (decide (x = prev + 1)) as [Hx|Hx].
    + rewrite IH by lia. rewrite seqZ_app by lia.
      rewrite seqZ_one.
      rewrite <-(assoc_L (++)). cbn [app]. do 3 f_equal. lia.
    + rewrite IH by lia. rewrite bind_app.
      rewrite seqZ_one.
      cbn [mbind list_bind app]. unfold expand_run. cbn [fst snd].
      rewrite app_nil_r. by rewrite <-(assoc_L (++)).
Qed.

Lemma runs_loop_good (rest : list Z) (prev start length : Z)
    (runs : list (Z * Z)) :
  Forall (λ x, 0 ≤ x) rest → 0 ≤ start → 1 ≤ length → Forall good_run runs →
  Forall good_run (runs_loop prev rest start length runs).
Proof.
  revert prev start length runs.
  induction rest as [|x rest IH]; intros prev start length runs Hrest Hs Hl Hr;
    cbn [runs_loop].
  - apply Forall_app. split; [done|]. by repeat constructor.
  - apply Forall_cons in Hrest as [Hx Hrest].
    destruct (decide (x = prev + 1)).
    + apply IH; [done|done|lia|done].
    + apply IH; [done|done|lia|].
      apply Forall_app. split; [done|]. by repeat constructor.
Qed.

Lemma decode_run_record (run : Z * Z) :
  good_run run →
  decode_run (encodeNumber run.1 ++ SEP :: encodeNumber run.2) = expand_run run.
Proof.
  intros [Hs Hl]. unfold decode_run.
  rewrite split_app by apply encodeNumber_no_SEP.
  rewrite split_notin by apply encodeNumber_no_SEP.
  rewrite !decode_encode by lia.
  unfold expand_run.
  replace (seqZ run.1 run.2) with (seqZ (run.1 + 0) run.2) by (f_equal; lia).
  by rewrite <-fmap_add_seqZ.
Qed.

Lemma decodeRunLength_records (runs : list (Z * Z)) :
  Forall good_run runs →
  decodeRunLength (runs ≫= run_record) = runs ≫= expand_run.
Proof.
  unfold decodeRunLength. induction 1 as [|r runs Hr Hruns IH]; [done|].
  cbn [mbind list_bind]. unfold run_record at 1.
  replace ((encodeNumber r.1 ++ [SEP] ++ encodeNumber r.2 ++ [TERM])
           ++ (runs ≫= run_record))
    with ((encodeNumber r.1 ++ SEP :: encodeNumber r.2)
           ++ TERM :: (runs ≫= run_record))
    by (by rewrite <-!(assoc_L (++))).
  rewrite split_app.
  - cbn [List.filter]. unfold nonempty at 1.
    rewrite bool_decide_true by (rewrite length_app; simpl; lia).
    cbn [mbind list_bind]. by rewrite decode_run_record, IH.
  - rewrite elem_of_app, elem_of_cons.
    intros [H|[H|H]]; [|done|]; by apply encodeNumber_no_TERM in H.
Qed.

(** Decoding what [encodeRunLength] wrote gives the sorted input back,
    repeated values included. *)
Lemma runLength_roundtrip (xs : list Z) :
  Forall (λ x, 0 ≤ x) xs →
  decodeRunLength (slice_from (encodeRunLength xs).1 1) = sort_numbers xs.
Proof.
  intros Hxs. unfold encodeRunLength.
  destruct (decide (length xs = 0%nat)) as [Hnil|Hne].
  - apply nil_length_inv in Hnil as ->. reflexivity.
  - pose proof (sort_numbers_Forall _ _ Hxs) as Hsorted.
    destruct (sort_numbers xs) as [|first rest] eqn:Hsort.
    { apply (f_equal length) in Hsort.
      rewrite sort_numbers_length in Hsort. done. }
    apply Forall_cons in Hsorted as [Hfirst Hrest].
    cbn [fst]. rewrite fold_encode_run.
    cbn [app]. rewrite slice_from_1.
    rewrite decodeRunLength_records
      by (apply runs_loop_good; [done|done|lia|constructor]).
    rewrite runs_loop_expand by lia.
    by rewrite seqZ_one.
Qed.

(** ** Direct strategy *)

Lemma fold_encode_one (nums : list Z) (encoded : str) :
  fold_left encode_one nums encoded = encoded ++ (nums ≫= number_record).
Proof.
  revert encoded. induction nums as [|n nums IH]; intros encoded; simpl.
  - by rewrite app_nil_r.
  - rewrite IH. unfold encode_one, number_record. by rewrite <-!(assoc_L (++)).
Qed.

Lemma decodeDirect_records (nums : list Z) :
  Forall in_range nums → decodeDirect (nums ≫= number_record) = nums.
Proof.
  unfold decodeDirect. induction 1 as [|n nums Hn Hnums IH]; [done|].
  cbn [mbind list_bind]. unfold number_record at 1.
  rewrite <-(assoc_L (++)). cbn [app].
  rewrite split_app by apply encodeNumber_no_SEP.
  cbn [List.filter]. unfold nonempty at 1.
  rewrite bool_decide_true.
  - cbn [mbind list_bind]. rewrite IH. unfold decode_part.
    destruct Hn. rewrite decode_encode by lia. by rewrite decide_True.
  - destruct Hn. pose proof (encodeNumber_nonempty n).
    destruct (encodeNumber n); [naive_solver lia|simpl; lia].
Qed.

Lemma direct_roundtrip (xs : list Z) :
  Forall in_range xs →
  decodeDirect (slice_from (encodeDirect xs).1 1) = sort_numbers xs.
Proof.
  intros Hxs. unfold encodeDirect. cbn [fst]. rewrite fold_encode_one.
  cbn [app]. rewrite slice_from_1.
  apply decodeDirect_records. by apply sort_numbers_Forall.
Qed.

(** ** Bit strings *)

Lemma parseInt2_snoc (s : list bool) (b : bool) :
  parseInt2 (s ++ [b]) = 2 * parseInt2 s + (if b then 1 else 0).
Proof. unfold parseInt2. by rewrite fold_left_app. Qed.

Lemma parseInt2_pos_digits (p : positive) : parseInt2 (pos_digits p) = Zpos p.
Proof.
  induction p as [p IH|p IH|]; cbn [pos_digits];
    rewrite ?parseInt2_snoc, ?IH; [lia|lia|done].
Qed.

Lemma parseInt2_toString2 (n : Z) : 0 ≤ n → parseInt2 (toString2 n) = n.
Proof.
  destruct n as [|p|p]; intros Hn; [done| |lia].
  apply parseInt2_pos_digits.
Qed.

Lemma parseInt2_zeros (k : nat) (s : list bool) :
  parseInt2 (replicate k false ++ s) = parseInt2 s.
Proof.
  unfold parseInt2. rewrite fold_left_app. f_equal.
  induction k as [|k IH]; [done|]. by cbn [replicate fold_left].
Qed.

Lemma parseInt2_padStart (w : nat) (n : Z) :
  0 ≤ n → parseInt2 (padStart w (toString2 n)) = n.
Proof.
  intros Hn. unfold padStart. by rewrite parseInt2_zeros, parseInt2_toString2.
Qed.

Lemma length_pos_digits (p : positive) (w : nat) :
  Zpos p < 2 ^ Z.of_nat w → (length (pos_digits p) ≤ w)%nat.
Proof.
  revert w. induction p as [p IH|p IH|]; intros w Hp; cbn [pos_digits].
  - destruct w as [|w]; [simpl in Hp; lia|].
    rewrite Nat2Z.inj_succ, Z.pow_succ_r in Hp by lia.
    rewrite length_app. specialize (IH w). simpl. lia.
  - destruct w as [|w]; [simpl in Hp; lia|].
    rewrite Nat2Z.inj_succ, Z.pow_succ_r in Hp by lia.
    rewrite length_app. specialize (IH w). simpl. lia.
  - destruct w as [|w]; [simpl in Hp; lia|]. simpl. lia.
Qed.

Lemma length_padStart (w : nat) (n : Z) :
  (0 < w)%nat → 0 ≤ n < 2 ^ Z.of_nat w → length (padStart w (toString2 n)) = w.
Proof.
  intros Hw Hn. unfold padStart. rewrite length_app, length_replicate.
  enough (length (toString2 n) ≤ w)%nat by lia.
  destruct n as [|p|p]; [simpl; lia| |lia].
  apply length_pos_digits. lia.
Qed.

(** A chunk of six binary digits is the index of a character of the
    alphabet, and [toString(2).padStart(6, '0')] gives the chunk back. *)
Lemma chunk_value (chunk : list bool) :
  length chunk = 6%nat →
  0 ≤ parseInt2 chunk < 64 ∧ padStart 6 (toString2 (parseInt2 chunk)) = chunk.
Proof.
  intros Hlen.
  do 7 (destruct chunk as [|[] chunk]; try discriminate Hlen);
    (split; [by vm_compute|reflexivity]).
Qed.

(** ** Packing bits into characters and back *)

Lemma fold_unpack_char (packedData : str) (bitString : list bool) :
  fold_left unpack_char packedData bitString = bitString ++ unpack packedData.
Proof.
  unfold unpack. revert bitString.
  induction packedData as [|c s IH] using rev_ind; intros bitString.
  - simpl. by rewrite app_nil_r.
  - rewrite !fold_left_app. cbn [fold_left]. rewrite IH, (IH []).
    unfold unpack_char. case_decide; [|done].
    by rewrite <-!(assoc_L (++)).
Qed.

Lemma unpack_app (s t : str) : unpack (s ++ t) = unpack s ++ unpack t.
Proof. unfold unpack at 1. by rewrite fold_left_app, fold_unpack_char. Qed.

Lemma join_app (c1 c2 : list (option ascii)) : join (c1 ++ c2) = join c1 ++ join c2.
Proof. unfold join. by rewrite bind_app. Qed.

Lemma unpack_chunk (chunk : list bool) :
  length chunk = 6%nat →
  unpack (join [char_at alphabet (parseInt2 chunk)]) = chunk.
Proof.
  intros Hlen. destruct (chunk_value chunk Hlen) as [Hv Hpad].
  destruct (char_at_alphabet (parseInt2 chunk)) as (c & -> & _ & Hc).
  { rewrite base_eq. lia. }
  cbn. unfold unpack_char. rewrite Hc, decide_True by lia. by rewrite Hpad.
Qed.

(** Enough fuel: the chunks hold the whole bit string, padded with zeros. *)
Lemma chunks_loop_unpack (fuel : nat) (bitString : list bool) (i : Z)
    (chunks : list (option ascii)) :
  0 ≤ i → Z.of_nat (length bitString) - i ≤ Z.of_nat fuel →
  ∃ pad, unpack (join (chunks_loop fuel bitString i chunks))
         = unpack (join chunks) ++ drop (Z.to_nat i) bitString
           ++ replicate pad false.
Proof.
  revert i chunks. induction fuel as [|fuel IH]; intros i chunks Hi Hfuel;
    cbn [chunks_loop].
  - exists 0%nat. rewrite drop_ge by lia. by rewrite !app_nil_r.
  - destruct (decide (i < Z.of_nat (length bitString))) as [Hlt|Hge].
    + destruct (IH (i + 6) (chunks ++ [char_at alphabet (parseInt2
        (padEnd 6 (slice bitString i (i + 6))))])) as [pad Hpad]; [lia|lia|].
      rewrite Hpad, join_app, unpack_app.
      rewrite slice_clamped by lia.
      replace (Z.to_nat (i + 6 - i)) with 6%nat by lia.
      replace (Z.to_nat (i + 6)) with (Z.to_nat i + 6)%nat by lia.
      rewrite <-drop_drop.
      set (rest := drop (Z.to_nat i) bitString).
      rewrite unpack_chunk.
      2:{ unfold padEnd. rewrite length_app, length_replicate, length_take. lia. }
      unfold padEnd.
      destruct (decide (6 ≤ length rest)%nat) as [Hlong|Hshort].
      * exists pad. rewrite length_take, Nat.min_l by done.
        rewrite Nat.sub_diag. cbn [replicate]. rewrite app_nil_r.
        rewrite <-!(assoc_L (++)). f_equal.
        by rewrite (assoc_L (++)), take_drop.
      * exists (6 - length rest + pad)%nat.
        rewrite take_ge, drop_ge by lia. cbn [app].
        rewrite replicate_add. by rewrite <-!(assoc_L (++)).
    + exists 0%nat. rewrite drop_ge by lia. by rewrite !app_nil_r.
Qed.

(** Fuel beyond the length of the bit string is never used. *)
Lemma chunks_loop_fuel (fuel extra : nat) (bitString : list bool) (i : Z)
    (chunks : list (option ascii)) :
  Z.of_nat (length bitString) - i ≤ Z.of_nat fuel →
  chunks_loop (fuel + extra) bitString i chunks
  = chunks_loop fuel bitString i chunks.
Proof.
  revert i chunks. induction fuel as [|fuel IH]; intros i chunks Hfuel.
  - destruct extra as [|extra]; [done|]. cbn [Nat.add chunks_loop].
    by rewrite decide_False by lia.
  - cbn [Nat.add chunks_loop]. case_decide; [|done]. apply IH. lia.
Qed.

Lemma chunks_unpack (bitString : list bool) :
  ∃ pad, unpack (join (chunks_loop (length bitString) bitString 0 []))
         = bitString ++ replicate pad false.
Proof.
  destruct (chunks_loop_unpack (length bitString) bitString 0 [])
    as [pad Hpad]; [lia|lia|].
  exists pad. by rewrite Hpad.
Qed.

(** ** Bit-packed frequency strategy *)

Lemma fold_entry_bits (entries : list (Z * Z)) (bitString : list bool) :
  fold_left entry_bits entries bitString
  = bitString ++ (entries ≫= entry_record).
Proof.
  revert bitString. induction entries as [|e entries IH]; intros bitString; simpl.
  - by rewrite app_nil_r.
  - rewrite IH. unfold entry_bits, entry_record. by rewrite <-!(assoc_L (++)).
Qed.

Lemma decode_entry_record (pre suffix : list bool) (entry : Z * Z) (i : Z) :
  good_entry entry → Z.of_nat (length pre) = i * 17 →
  decode_entry (pre ++ entry_record entry ++ suffix) i = expand_entry entry.
Proof.
  intros [[Hlo Hhi] Hcount] Hpre. unfold decode_entry, entry_record.
  change (Z.of_nat bitsPerNumber) with 9. change (Z.of_nat bitsPerCount) with 8.
  set (numBits := padStart bitsPerNumber (toString2 (entry.1 - 1))).
  set (countBits := padStart bitsPerCount (toString2 (Z.min entry.2 255))).
  assert (length numBits = 9%nat) as HnumLen.
  { apply length_padStart; [unfold bitsPerNumber; lia|].
    change (2 ^ Z.of_nat bitsPerNumber) with 512. lia. }
  assert (length countBits = 8%nat) as HcountLen.
  { apply length_padStart; [unfold bitsPerCount; lia|].
    change (2 ^ Z.of_nat bitsPerCount) with 256. lia. }
  rewrite decide_True by (rewrite !length_app; lia).
  rewrite !slice_take_drop by (rewrite ?length_app; lia).
  replace (Z.to_nat (i * (9 + 8))) with (length pre + 0)%nat by lia.
  replace (Z.to_nat (i * (9 + 8) + 9)) with (length pre + 9)%nat by lia.
  replace (Z.to_nat (i * (9 + 8) + 9 - i * (9 + 8))) with 9%nat by lia.
  replace (Z.to_nat (i * (9 + 8) + 9 + 8 - (i * (9 + 8) + 9))) with 8%nat by lia.
  rewrite !drop_app_add. rewrite drop_0.
  rewrite <-(assoc_L (++)).
  assert (take 9 (numBits ++ countBits ++ suffix) = numBits) as ->.
  { rewrite <-HnumLen. apply take_app_length. }
  assert (take 8 (drop 9 (numBits ++ countBits ++ suffix)) = countBits) as ->.
  { rewrite <-HnumLen, drop_app_length, <-HcountLen. apply take_app_length. }
  unfold numBits, countBits. rewrite !parseInt2_padStart by lia.
  rewrite decide_True by lia. unfold expand_entry.
  f_equal; [f_equal|]; lia.
Qed.

Lemma decode_entries (entries : list (Z * Z)) (pre suffix : list bool) (i : Z) :
  Forall good_entry entries → Z.of_nat (length pre) = i * 17 → 0 ≤ i →
  seqZ i (Z.of_nat (length entries))
    ≫= decode_entry (pre ++ (entries ≫= entry_record) ++ suffix)
  = entries ≫= expand_entry.
Proof.
  intros Hgood. revert pre i.
  induction Hgood as [|e entries He Hentries IH]; intros pre i Hpre Hi; [done|].
  rewrite length_cons, Nat2Z.inj_succ, seqZ_cons by lia.
  rewrite Z.pred_succ. cbn [mbind list_bind]. f_equal.
  - rewrite <-(assoc_L (++)). by apply decode_entry_record.
  - rewrite <-(assoc_L (++)), (assoc_L (++) pre). apply IH; [|lia].
    rewrite length_app.
    assert (length (entry_record e) = 17%nat) as Hlen; [|lia].
    destruct He as [[Hlo Hhi] Hcount]. unfold entry_record.
    rewrite length_app, !length_padStart; [done| | | |].
    + unfold bitsPerCount; lia.
    + change (2 ^ Z.of_nat bitsPerCount) with 256. lia.
    + unfold bitsPerNumber; lia.
    + change (2 ^ Z.of_nat bitsPerNumber) with 512. lia.
Qed.

(** *** The frequency table *)

Lemma occurrences_cons (x y : Z) (xs : list Z) :
  occurrences x (y :: xs) = (if decide (y = x) then 1 else 0) + occurrences x xs.
Proof.
  unfold occurrences. rewrite filter_cons.
  destruct (decide (y = x)); [rewrite length_cons|]; lia.
Qed.

Lemma occurrences_nonneg (x : Z) (xs : list Z) : 0 ≤ occurrences x xs.
Proof. unfold occurrences. lia. Qed.

Lemma occurrences_notin (x : Z) (xs : list Z) : x ∉ xs → occurrences x xs = 0.
Proof.
  induction xs as [|y xs IH]; intros Hx; [done|].
  apply not_elem_of_cons in Hx as [Hxy Hx].
  rewrite occurrences_cons, IH by done. by rewrite decide_False.
Qed.

Lemma occurrences_elem (x : Z) (xs : list Z) : 0 < occurrences x xs → x ∈ xs.
Proof.
  intros Hpos. destruct (decide (x ∈ xs)) as [|Hx]; [done|].
  rewrite occurrences_notin in Hpos by done. lia.
Qed.

Lemma occurrences_NoDup (x : Z) (xs : list Z) : NoDup xs → occurrences x xs ≤ 1.
Proof.
  induction 1 as [|y xs Hy Hxs IH]; [done|].
  rewrite occurrences_cons. destruct (decide (y = x)) as [->|]; [|lia].
  rewrite occurrences_notin by done. lia.
Qed.

Lemma freq_fold_lookup (xs : list Z) (m : gmap Z Z) (k : Z) :
  Forall in_range xs →
  fold_left freq_step xs m !! k
  = if decide (occurrences k xs = 0) then m !! k
    else Some (default 0 (m !! k) + occurrences k xs).
Proof.
  intros Hxs. revert m.
  induction Hxs as [|x xs Hx Hxs IH]; intros m; [done|].
  cbn [fold_left]. rewrite IH, occurrences_cons.
  pose proof (occurrences_nonneg k xs).
  unfold freq_step. rewrite (decide_True (P := 1 ≤ x ∧ x ≤ 300)) by exact Hx.
  destruct (decide (x = k)) as [->|Hne].
  - rewrite lookup_insert_eq. cbn [default].
    rewrite (decide_False (P := 1 + _ = 0)) by lia.
    unfold id. case_decide; f_equal; lia.
  - rewrite lookup_insert_ne by done. rewrite Z.add_0_l.
    by case_decide.
Qed.

Lemma freq_of_lookup (xs : list Z) (k c : Z) :
  Forall in_range xs →
  freq_of xs !! k = Some c → c = occurrences k xs ∧ 0 < c.
Proof.
  intros Hxs. unfold freq_of. rewrite freq_fold_lookup by done.
  rewrite lookup_empty. pose proof (occurrences_nonneg k xs).
  case_decide; [done|]. intros [= <-]. cbn [default]. unfold id. lia.
Qed.

Lemma freq_step_expand (m : gmap Z Z) (x : Z) :
  in_range x → map_Forall (λ _ c, 0 ≤ c) m →
  map_to_list (freq_step m x) ≫= expand_entry
  ≡ₚ x :: (map_to_list m ≫= expand_entry).
Proof.
  intros Hx Hm. unfold freq_step. rewrite decide_True by exact Hx.
  destruct (m !! x) as [c|] eqn:Hlookup; cbn [default]; unfold id.
  - rewrite <-insert_delete_eq.
    rewrite map_to_list_insert by apply lookup_delete_eq.
    rewrite <-(map_to_list_delete m x c) by done.
    cbn [mbind list_bind]. unfold expand_entry at 1 3. cbn [fst snd].
    apply Hm in Hlookup.
    replace (Z.to_nat (c + 1)) with (S (Z.to_nat c)) by lia.
    by rewrite replicate_S.
  - rewrite map_to_list_insert by done.
    cbn [mbind list_bind]. unfold expand_entry at 1. cbn [fst snd].
    by rewrite Z.add_0_l.
Qed.

Lemma freq_step_nonneg (m : gmap Z Z) (x : Z) :
  map_Forall (λ _ c, 0 ≤ c) m → map_Forall (λ _ c, 0 ≤ c) (freq_step m x).
Proof.
  intros Hm. unfold freq_step. case_decide; [|done].
  apply map_Forall_insert_2; [|done].
  destruct (m !! x) as [c|] eqn:Hlookup; cbn [default]; unfold id; [|lia].
  apply Hm in Hlookup. lia.
Qed.

Lemma freq_fold_expand (xs : list Z) (m : gmap Z Z) :
  Forall in_range xs → map_Forall (λ _ c, 0 ≤ c) m →
  map_to_list (fold_left freq_step xs m) ≫= expand_entry
  ≡ₚ (map_to_list m ≫= expand_entry) ++ xs.
Proof.
  intros Hxs. revert m.
  induction Hxs as [|x xs Hx Hxs IH]; intros m Hm; cbn [fold_left].
  - by rewrite app_nil_r.
  - rewrite IH by by apply freq_step_nonneg.
    rewrite freq_step_expand by done.
    by rewrite <-Permutation_middle.
Qed.

Lemma entries_of_expand (xs : list Z) :
  Forall in_range xs → entries_of xs ≫= expand_entry ≡ₚ xs.
Proof.
  intros Hxs. unfold entries_of. rewrite merge_sort_Permutation.
  unfold freq_of. rewrite freq_fold_expand; [|done|apply map_Forall_empty].
  by rewrite map_to_list_empty.
Qed.

Lemma entries_of_good (xs : list Z) :
  Forall in_range xs → (∀ x, occurrences x xs ≤ 255) →
  Forall good_entry (entries_of xs).
Proof.
  intros Hxs Hocc. unfold entries_of. rewrite merge_sort_Permutation.
  apply Forall_forall. intros [k c] Hin.
  apply elem_of_map_to_list in Hin.
  apply freq_of_lookup in Hin as [-> Hpos]; [|done].
  split; cbn [fst snd].
  - apply occurrences_elem in Hpos.
    by apply (proj1 (Forall_forall _ _) Hxs).
  - specialize (Hocc k). lia.
Qed.

(** *** Decoding a bit-packed payload *)

Lemma sort_numbers_proper (a b : list Z) :
  a ≡ₚ b → sort_numbers a = sort_numbers b.
Proof.
  intros Hab. apply sort_numbers_unique; [apply sort_numbers_sorted|].
  by rewrite sort_numbers_perm.
Qed.

Lemma decodeBitPacking_payload (n : Z) (packedData : str) :
  0 < n →
  decodeBitPacking (encodeNumber n ++ [SEP] ++ packedData)
  = sort_numbers (seqZ 0 n ≫= decode_entry (unpack packedData)).
Proof.
  intros Hn. unfold decodeBitPacking.
  pose proof (encodeNumber_nonempty n ltac:(lia)) as Hne.
  rewrite decide_False by (by destruct (encodeNumber n)).
  cbn [app]. rewrite indexOf_first by apply encodeNumber_no_SEP.
  rewrite decide_False by lia.
  rewrite slice_take_drop by (rewrite ?length_app; lia).
  rewrite slice_from_drop by (rewrite length_app, length_cons; lia).
  rewrite Z.sub_0_r, Nat2Z.id. cbn [Z.to_nat drop]. rewrite drop_0.
  rewrite take_app_length.
  replace (Z.to_nat (Z.of_nat (length (encodeNumber n)) + 1))
    with (length (encodeNumber n) + 1)%nat by lia.
  rewrite drop_app_add. cbn [drop]. rewrite drop_0.
  rewrite decode_encode by lia. rewrite decide_False by lia.
  done.
Qed.

Lemma bitPacking_payload (xs : list Z) :
  length xs ≠ 0%nat →
  (encodeBitPacking xs).1
  = "B"%char :: encodeNumber (Z.of_nat (length (entries_of xs))) ++ [SEP]
      ++ join (chunks_loop (length (entries_of xs ≫= entry_record))
                 (entries_of xs ≫= entry_record) 0 []).
Proof.
  intros Hne. unfold encodeBitPacking. rewrite decide_False by done.
  cbn [fst]. by rewrite fold_entry_bits.
Qed.

Lemma decode_packed_entries (xs : list Z) :
  Forall in_range xs → (∀ x, occurrences x xs ≤ 255) →
  seqZ 0 (Z.of_nat (length (entries_of xs)))
    ≫= decode_entry
         (unpack (join (chunks_loop (length (entries_of xs ≫= entry_record))
                          (entries_of xs ≫= entry_record) 0 [])))
  = entries_of xs ≫= expand_entry.
Proof.
  intros Hxs Hocc.
  destruct (chunks_unpack (entries_of xs ≫= entry_record)) as [pad ->].
  apply (decode_entries _ [] (replicate pad false) 0);
    [by apply entries_of_good|done|done].
Qed.

(** ** Facade *)

Lemma deserialize_R (data : str) :
  deserialize (Some ("R"%char :: data)) = Return (decodeRunLength data).
Proof. cbn [deserialize]. by repeat case_decide. Qed.

Lemma deserialize_B (data : str) :
  deserialize (Some ("B"%char :: data)) = Return (decodeBitPacking data).
Proof. cbn [deserialize]. by repeat case_decide. Qed.

Lemma deserialize_D (data : str) :
  deserialize (Some ("D"%char :: data)) = Return (decodeDirect data).
Proof. cbn [deserialize]. by repeat case_decide. Qed.

Lemma deserialize_direct (xs : list Z) :
  Forall in_range xs →
  deserialize (Some (encodeDirect xs).1) = Return (sort_numbers xs).
Proof.
  intros Hxs. unfold encodeDirect. cbn [fst]. rewrite fold_encode_one.
  cbn [app]. rewrite deserialize_D.
  f_equal. apply decodeDirect_records. by apply sort_numbers_Forall.
Qed.

Lemma deserialize_runLength (xs : list Z) :
  length xs ≠ 0%nat → Forall (λ x, 0 ≤ x) xs →
  deserialize (Some (encodeRunLength xs).1) = Return (sort_numbers xs).
Proof.
  intros Hne Hxs. pose proof (runLength_roundtrip xs Hxs) as Hrt.
  unfold encodeRunLength in *. rewrite decide_False in * by done.
  destruct (sort_numbers xs) as [|first rest] eqn:Hsort.
  { apply (f_equal length) in Hsort. by rewrite sort_numbers_length in Hsort. }
  cbn [fst] in *. rewrite fold_encode_run in *.
  cbn [app] in *. rewrite slice_from_1 in Hrt.
  rewrite deserialize_R. by f_equal.
Qed.

Lemma deserialize_bitPacking (xs : list Z) :
  Forall in_range xs → (∀ x, occurrences x xs ≤ 255) →
  deserialize (Some (encodeBitPacking xs).1) = Return (sort_numbers xs).
Proof.
  intros Hxs Hocc. destruct (decide (length xs = 0%nat)) as [Hnil|Hne].
  { apply nil_length_inv in Hnil as ->. reflexivity. }
  rewrite bitPacking_payload by done. rewrite deserialize_B. f_equal.
  destruct (entries_of xs) as [|e es] eqn:Hentries.
  - pose proof (entries_of_expand xs Hxs) as Hperm.
    rewrite Hentries in Hperm. apply Permutation_nil_l in Hperm as <-.
    done.
  - rewrite <-Hentries.
    rewrite decodeBitPacking_payload by (rewrite Hentries, length_cons; lia).
    rewrite decode_packed_entries by done.
    apply sort_numbers_proper. by apply entries_of_expand.
Qed.

(** *** The encoders and the caller's array *)

Lemma encodeRunLength_array (xs : list Z) :
  length xs ≠ 0%nat → (encodeRunLength xs).2 = sort_numbers xs.
Proof.
  intros Hne. unfold encodeRunLength. rewrite decide_False by done.
  by destruct (sort_numbers xs).
Qed.

Lemma encodeBitPacking_array (xs : list Z) : (encodeBitPacking xs).2 = xs.
Proof. unfold encodeBitPacking. by case_decide. Qed.

Lemma encodeDirect_array (xs : list Z) : (encodeDirect xs).2 = xs.
Proof. done. Qed.

(** The bit-packed and the direct encoding do not depend on the order of
    the array, so they are the same before and after the in-place sort. *)
Lemma freq_step_comm (m : gmap Z Z) (x y : Z) :
  freq_step (freq_step m x) y = freq_step (freq_step m y) x.
Proof.
  destruct (decide (x = y)) as [->|Hne]; [done|].
  unfold freq_step. repeat case_decide; try done.
  rewrite !lookup_insert_ne by done. by apply insert_insert_ne.
Qed.

Lemma freq_fold_perm (l1 l2 : list Z) :
  l1 ≡ₚ l2 → ∀ m, fold_left freq_step l1 m = fold_left freq_step l2 m.
Proof.
  induction 1 as [|x l1 l2 _ IH|x y l|l1 l2 l3 _ IH1 _ IH2]; intros m.
  - done.
  - cbn [fold_left]. apply IH.
  - cbn [fold_left]. by rewrite freq_step_comm.
  - by rewrite IH1.
Qed.

Lemma encodeBitPacking_perm (l1 l2 : list Z) :
  l1 ≡ₚ l2 → (encodeBitPacking l1).1 = (encodeBitPacking l2).1.
Proof.
  intros Hperm. unfold encodeBitPacking, entries_of, freq_of.
  rewrite (freq_fold_perm l1 l2 Hperm).
  assert (length l1 = length l2) as -> by by rewrite Hperm.
  by case_decide.
Qed.

Lemma encodeDirect_perm (l1 l2 : list Z) :
  l1 ≡ₚ l2 → (encodeDirect l1).1 = (encodeDirect l2).1.
Proof.
  intros Hperm. unfold encodeDirect. cbn [fst].
  by rewrite (sort_numbers_proper l1 l2).
Qed.

(** What [serialize] computes on a non-empty array, with the three
    candidates as the encoders give them on that array. *)
Lemma serialize_nonempty (numbers : list Z) :
  length numbers ≠ 0%nat →
  serialize (Some numbers)
  = (fold_left shorter
       [(encodeDirect numbers).1; (encodeRunLength numbers).1;
        (encodeBitPacking numbers).1]
       (encodeDirect numbers).1,
     Some (sort_numbers numbers)).
Proof.
  intros Hne. unfold serialize. rewrite decide_False by done.
  pose proof (encodeRunLength_array numbers Hne) as Harr.
  destruct (encodeRunLength numbers) as [runLength ns1]. cbn [fst snd] in *.
  subst ns1.
  pose proof (encodeBitPacking_array (sort_numbers numbers)) as Hb.
  pose proof (encodeBitPacking_perm _ _ (sort_numbers_perm numbers)) as Hb1.
  destruct (encodeBitPacking (sort_numbers numbers)) as [bitPacking ns2].
  cbn [fst snd] in *. subst ns2.
  pose proof (encodeDirect_array (sort_numbers numbers)) as Hd.
  pose proof (encodeDirect_perm _ _ (sort_numbers_perm numbers)) as Hd1.
  destruct (encodeDirect (sort_numbers numbers)) as [direct ns3].
  cbn [fst snd] in *. subst ns3. by rewrite <-Hb1, <-Hd1.
Qed.

Lemma shortest_cases (d r b : str) :
  let result := fold_left shorter [d; r; b] d in
  (result = d ∧ (length d ≤ length r)%nat ∧ (length d ≤ length b)%nat)
  ∨ (result = r ∧ (length r < length d)%nat ∧ (length r ≤ length b)%nat)
  ∨ (result = b ∧ (length b < length d)%nat ∧ (length b < length r)%nat).
Proof.
  cbn [fold_left]. unfold shorter.
  rewrite (decide_False (P := (length d < length d)%nat)) by lia.
  repeat case_decide; [right; right|right; right|right; left|left];
    (split; [done|lia]).
Qed.

(** The codec gives back the sorted input whenever the count field of the
    bit-packed strategy holds every multiplicity. *)
Lemma serialize_roundtrip (xs : list Z) :
  Forall in_range xs → (∀ x, occurrences x xs ≤ 255) →
  deserialize (Some (serialize (Some xs)).1) = Return (sort_numbers xs).
Proof.
  intros Hxs Hocc. destruct (decide (length xs = 0%nat)) as [Hnil|Hne].
  { apply nil_length_inv in Hnil as ->. reflexivity. }
  rewrite serialize_nonempty by done. cbn [fst].
  destruct (shortest_cases (encodeDirect xs).1 (encodeRunLength xs).1
    (encodeBitPacking xs).1) as [(-> & _)|[(-> & _)|(-> & _)]].
  - by apply deserialize_direct.
  - apply deserialize_runLength; [done|].
    eapply Forall_impl; [done|]. intros x [? ?]. lia.
  - by apply deserialize_bitPacking.
Qed.

(** What [decodeBitPacking] pushes has passed its range check. *)
Lemma decode_entry_range (bitString : list bool) (i : Z) :
  Forall in_range (decode_entry bitString i).
Proof.
  unfold decode_entry. cbn zeta. repeat case_decide; try done.
  apply Forall_replicate. unfold in_range. lia.
Qed.

(** * Further properties of the codec *)

(** ** Scalar codec: the written digits *)

Lemma encodeNumber_loop_acc (fuel : nat) (num : Z) (result : str) :
  encodeNumber_loop fuel num result = encodeNumber_loop fuel num [] ++ result.
Proof.
  revert num result. induction fuel as [|fuel IH]; intros num result; [done|].
  cbn [encodeNumber_loop]. case_decide; [|done].
  rewrite IH, (IH _ (_ ++ [])). by rewrite app_nil_r, <-(assoc_L (++)).
Qed.

Lemma encodeNumber_negative (n : Z) : n < 0 → encodeNumber n = [].
Proof.
  intros Hn. unfold encodeNumber. rewrite decide_False by lia.
  cbn [encodeNumber_loop]. by rewrite decide_False by lia.
Qed.

(** One turn of the loop: the last digit is [num % base], the digits before
    it are those of the quotient, none if the quotient is 0. *)
Lemma encodeNumber_step (n : Z) :
  0 < n →
  encodeNumber n
  = (if decide (n `div` base = 0) then [] else encodeNumber (n `div` base))
    ++ to_str (char_at alphabet (n `mod` base)).
Proof.
  intros Hn. unfold encodeNumber at 1. rewrite decide_False by lia.
  cbn [encodeNumber_loop]. rewrite decide_True by done.
  rewrite Z.rem_mod_nonneg by (rewrite ?base_eq; lia).
  rewrite encodeNumber_loop_acc, app_nil_r. f_equal.
  assert (0 ≤ n `div` base) as Hq by (rewrite base_eq; apply Z.div_pos; lia).
  destruct (decide (n `div` base = 0)) as [->|Hne].
  - destruct (Z.to_nat (Z.log2 n)); [done|].
    cbn [encodeNumber_loop]. by rewrite decide_False by lia.
  - unfold encodeNumber. rewrite decide_False by done.
    assert (Z.log2 (n `div` base) < Z.log2 n) as Hlog.
    { apply Z.log2_lt_pow2; [lia|].
      pose proof (Z.log2_spec n Hn) as [_ Hup].
      rewrite Z.pow_succ_r in Hup by apply Z.log2_nonneg.
      pose proof (Z.pow_pos_nonneg 2 (Z.log2 n) ltac:(lia) (Z.log2_nonneg n)).
      apply Z.div_lt_upper_bound; rewrite base_eq; lia. }
    pose proof (Z.log2_nonneg (n `div` base)).
    replace (Z.to_nat (Z.log2 n))
      with (S (Z.to_nat (Z.log2 (n `div` base)))
            + (Z.to_nat (Z.log2 n) - S (Z.to_nat (Z.log2 (n `div` base)))))%nat
      by lia.
    apply encodeNumber_loop_fuel, log2_fuel. lia.
Qed.

Lemma encodeNumber_digits_length (k : nat) (n : Z) :
  base ^ Z.of_nat k ≤ n < base ^ Z.of_nat (S k) →
  length (encodeNumber n) = S k.
Proof.
  revert n. induction k as [|k IH]; intros n Hn.
  - change (base ^ Z.of_nat 0) with 1 in Hn.
    change (base ^ Z.of_nat 1) with base in Hn.
    rewrite encodeNumber_step by lia.
    rewrite Z.div_small, decide_True by lia.
    destruct (char_at_alphabet (n `mod` base)) as (c & -> & _).
    { apply Z.mod_pos_bound. rewrite base_eq. lia. }
    done.
  - assert (0 < base ^ Z.of_nat k) as Hpow.
    { apply Z.pow_pos_nonneg; [by rewrite base_eq|lia]. }
    rewrite (Nat2Z.inj_succ (S k)), Z.pow_succ_r in Hn by lia.
    rewrite (Nat2Z.inj_succ k), Z.pow_succ_r in Hn by lia.
    rewrite encodeNumber_step by (rewrite base_eq in *; lia).
    assert (base ^ Z.of_nat k ≤ n `div` base < base ^ Z.of_nat (S k)) as Hq.
    { rewrite (Nat2Z.inj_succ k), Z.pow_succ_r by lia. split.
      - apply Z.div_le_lower_bound; [by rewrite base_eq|lia].
      - apply Z.div_lt_upper_bound; [by rewrite base_eq|lia]. }
    rewrite decide_False by lia.
    destruct (char_at_alphabet (n `mod` base)) as (c & -> & _).
    { apply Z.mod_pos_bound. by rewrite base_eq. }
    rewrite length_app, (IH _ Hq). simpl. lia.
Qed.

Lemma indexOf_char_at (c : ascii) :
  c ∈ alphabet →
  0 ≤ indexOf alphabet c < base
  ∧ char_at alphabet (indexOf alphabet c) = Some c.
Proof.
  intros Hc. apply list_elem_of_lookup in Hc as [i Hi].
  pose proof (lookup_lt_Some _ _ _ Hi) as Hlt. rewrite alphabet_length in Hlt.
  unfold indexOf.
  rewrite (indexOf_from_lookup _ _ i) by (apply alphabet_NoDup || done).
  rewrite base_eq. split; [lia|]. unfold char_at.
  rewrite decide_True by lia. by rewrite Z.add_0_l, Nat2Z.id.
Qed.

Lemma decode_fold_ge (s : str) (acc : Z) :
  Forall (.∈ alphabet) s → 0 ≤ acc → acc ≤ fold_left decode_step s acc.
Proof.
  intros Hs. revert acc. induction Hs as [|c s Hc Hs IH]; intros acc Hacc.
  - done.
  - cbn [fold_left]. destruct (indexOf_char_at c Hc) as [Hi _].
    etrans; [|apply IH]; unfold decode_step; rewrite base_eq in *; lia.
Qed.

Lemma decodeNumber_nonneg (s : str) :
  Forall (.∈ alphabet) s → 0 ≤ decodeNumber s.
Proof. intros Hs. rewrite decodeNumber_fold. by apply decode_fold_ge. Qed.

Lemma fold_left_step {A B} (f : A → B → A) (x : B) (l : list B) (a : A) :
  fold_left f (x :: l) a = fold_left f l (f a x).
Proof. reflexivity. Qed.

Lemma decode_step_0 (c : ascii) : decode_step 0 c = indexOf alphabet c.
Proof. unfold decode_step. lia. Qed.

Lemma decodeNumber_pos (c : ascii) (s : str) :
  Forall (.∈ alphabet) (c :: s) → indexOf alphabet c ≠ 0 →
  0 < decodeNumber (c :: s).
Proof.
  intros Hs Hc. apply Forall_cons in Hs as [Hin Hs].
  destruct (indexOf_char_at c Hin) as [Hi _].
  rewrite decodeNumber_fold, fold_left_step, decode_step_0.
  pose proof (decode_fold_ge s (indexOf alphabet c) Hs). lia.
Qed.

Lemma encodeNumber_head (n : Z) :
  0 < n →
  ∃ c rest, encodeNumber n = c :: rest ∧ indexOf alphabet c ≠ 0.
Proof.
  intros Hn. assert (0 ≤ n) as Hnn by lia. revert Hn. pattern n.
  apply Z_lt_induction; [|done]. clear n Hnn. intros n IH Hn.
  rewrite encodeNumber_step by done.
  assert (0 ≤ n `div` base) by (rewrite base_eq; apply Z.div_pos; lia).
  destruct (char_at_alphabet (n `mod` base)) as (c & -> & _ & Hc).
  { apply Z.mod_pos_bound. by rewrite base_eq. }
  destruct (decide (n `div` base = 0)) as [Hq|Hq].
  - exists c, []. split; [done|]. rewrite Hc.
    rewrite Z.mod_small; [lia|].
    split; [lia|]. apply Z.div_small_iff in Hq; rewrite base_eq in *; lia.
  - destruct (IH (n `div` base)) as (c0 & rest & -> & Hc0); [|lia|].
    + split; [done|]. apply Z.div_lt; rewrite ?base_eq; lia.
    + by exists c0, (rest ++ [c]).
Qed.

Lemma encodeNumber_canonical (n : Z) : 0 ≤ n → canonical (encodeNumber n).
Proof.
  intros Hn. split; [apply encodeNumber_alphabet|].
  destruct (decide (n = 0)) as [->|Hne]; [done|].
  destruct (encodeNumber_head n) as (c & rest & -> & Hc); [lia|].
  by destruct rest.
Qed.

Lemma encode_decode (s : str) :
  canonical s → encodeNumber (decodeNumber s) = s.
Proof.
  induction s as [|c s IH] using rev_ind; intros [Hall Hhead]; [done|].
  apply Forall_app in Hall as [Hs Hc]. rewrite Forall_singleton in Hc.
  destruct (indexOf_char_at c Hc) as [Hi Hat].
  rewrite decodeNumber_snoc. destruct s as [|c0 t].
  - change (decodeNumber []) with 0. rewrite Z.mul_0_l, Z.add_0_l.
    destruct (decide (indexOf alphabet c = 0)) as [Hz|Hz].
    + rewrite Hz in *. unfold encodeNumber. rewrite decide_True by done.
      by rewrite Hat.
    + rewrite encodeNumber_step by lia.
      rewrite Z.div_small, Z.mod_small by lia.
      rewrite decide_True by done. by rewrite Hat.
  - assert (indexOf alphabet c0 ≠ 0) as Hc0 by (by destruct t).
    pose proof (decodeNumber_pos c0 t Hs Hc0) as Hpos.
    rewrite encodeNumber_step by (rewrite base_eq in *; lia).
    replace ((decodeNumber (c0 :: t) * base + indexOf alphabet c) `div` base)
      with (decodeNumber (c0 :: t)).
    2:{ apply Z.div_unique with (indexOf alphabet c); lia. }
    replace ((decodeNumber (c0 :: t) * base + indexOf alphabet c) `mod` base)
      with (indexOf alphabet c).
    2:{ apply Z.mod_unique with (decodeNumber (c0 :: t)); lia. }
    rewrite decide_False by lia. rewrite Hat. cbn [to_str].
    rewrite IH; [done|]. split; [done|]. by destruct t.
Qed.

(** ** Binary64 arithmetic is exact below 2^53 *)

Lemma round_half_even_bounds (n d : Z) :
  0 < d →
  2 * n - d ≤ 2 * d * round_half_even n d ≤ 2 * n + d.
Proof.
  intros Hd. unfold round_half_even. cbn zeta.
  pose proof (Z.div_mod n d ltac:(lia)) as Hdm.
  pose proof (Z.mod_pos_bound n d Hd) as Hr.
  set (q := n `div` d) in *. set (r := n `mod` d) in *.
  repeat case_decide; try destruct (Z.even q); nia.
Qed.

Lemma round_half_even_1 (n : Z) : round_half_even n 1 = n.
Proof.
  unfold round_half_even. cbn zeta. rewrite Z.mod_1_r, Z.div_1_r.
  by rewrite decide_True by lia.
Qed.

Lemma log2_ratio_le (n d : Z) : log2_ratio n d ≤ Z.log2 n - Z.log2 d.
Proof. unfold log2_ratio. cbn zeta. repeat case_decide; lia. Qed.

Lemma log2_ratio_1 (n : Z) : 0 < n → log2_ratio n 1 = Z.log2 n.
Proof.
  intros Hn. unfold log2_ratio. cbn zeta.
  change (Z.log2 1) with 0. rewrite Z.sub_0_r.
  pose proof (Z.log2_nonneg n). pose proof (Z.log2_spec n Hn) as [Hlo _].
  rewrite decide_True by done. by rewrite decide_False by lia.
Qed.

Lemma pow2_53_lt_1024 : 2 ^ 53 < 2 ^ 1024.
Proof. by apply Z.pow_lt_mono_r. Qed.

(** An integer below 2^53 in absolute value is a binary64 number. *)
Lemma round64_small (z : Z) : - 2 ^ 53 < z < 2 ^ 53 → round64 z = Some z.
Proof.
  intros Hz. unfold round64. case_decide as Hz0; [by subst|].
  assert (0 < Z.abs z < 2 ^ 53) as Ha by lia.
  unfold nearest64. cbn zeta. rewrite log2_ratio_1 by lia.
  assert (Z.log2 (Z.abs z) < 53) as Hlog by (apply Z.log2_lt_pow2; lia).
  pose proof (Z.log2_nonneg (Z.abs z)).
  pose proof pow2_53_lt_1024.
  assert (floor_scaled
            (if decide (0 ≤ Z.log2 (Z.abs z) - 52)
             then round_half_even (Z.abs z) (1 * 2 ^ (Z.log2 (Z.abs z) - 52))
             else round_half_even
                    (Z.abs z * 2 ^ (- (Z.log2 (Z.abs z) - 52))) 1)
            (Z.log2 (Z.abs z) - 52) = Z.abs z) as ->.
  { unfold floor_scaled. destruct (decide (0 ≤ Z.log2 (Z.abs z) - 52)) as [He|He].
    - replace (Z.log2 (Z.abs z) - 52) with 0 by lia.
      change (1 * 2 ^ 0) with 1. rewrite round_half_even_1. lia.
    - rewrite round_half_even_1. apply Z.div_mul.
      apply Z.pow_nonzero; lia. }
  rewrite decide_False by lia. f_equal. lia.
Qed.

(** For a number below 2^53 the rounded quotient by the base has the
    integer part of the exact quotient. *)
Lemma floor_div64_exact (n : Z) :
  0 ≤ n < 2 ^ 53 → floor_div64 n base = n `div` base.
Proof.
  rewrite base_eq. intros Hn. unfold floor_div64.
  case_decide as Hn0; [by subst|].
  unfold nearest64. cbn zeta.
  pose proof (log2_ratio_le n 91) as Hk. change (Z.log2 91) with 6 in Hk.
  assert (Z.log2 n < 53) as Hlog by (apply Z.log2_lt_pow2; lia).
  set (e := log2_ratio n 91 - 52) in *.
  rewrite decide_False by lia. unfold floor_scaled.
  rewrite decide_False by lia.
  assert (2 ^ 6 ≤ 2 ^ (- e)) as Hpow by (apply Z.pow_le_mono_r; lia).
  change (2 ^ 6) with 64 in Hpow.
  set (P := 2 ^ (- e)) in *.
  pose proof (round_half_even_bounds (n * P) 91 ltac:(lia)) as Hm.
  set (m := round_half_even (n * P) 91) in *.
  pose proof (Z.div_mod n 91 ltac:(lia)) as Hdm.
  pose proof (Z.mod_pos_bound n 91 ltac:(lia)) as Hr.
  set (q := n `div` 91) in *. set (r := n `mod` 91) in *.
  symmetry. apply Z.div_unique with (m - q * P); nia.
Qed.

Lemma encodeNumber64_loop_exact (fuel : nat) (num : Z) (result : str) :
  0 ≤ num < 2 ^ Z.of_nat fuel → num < 2 ^ 53 →
  encodeNumber64_loop fuel num result
  = Some (encodeNumber_loop fuel num result).
Proof.
  revert num result. induction fuel as [|fuel IH]; intros num result Hnum H53.
  - cbn [encodeNumber64_loop encodeNumber_loop].
    change (2 ^ Z.of_nat 0) with 1 in Hnum. by rewrite decide_False by lia.
  - cbn [encodeNumber64_loop encodeNumber_loop].
    case_decide as Hpos; [|done].
    rewrite floor_div64_exact by lia.
    assert (0 ≤ num `div` base < num) as Hq.
    { rewrite base_eq. split; [apply Z.div_pos; lia|].
      apply Z.div_lt; lia. }
    apply IH; [|lia]. split; [lia|].
    rewrite Nat2Z.inj_succ, Z.pow_succ_r in Hnum by lia.
    rewrite base_eq. apply Z.div_lt_upper_bound; lia.
Qed.

Lemma encodeNumber64_exact (n : Z) :
  0 ≤ n < 2 ^ 53 → encodeNumber64 n = Some (encodeNumber n).
Proof.
  intros Hn. unfold encodeNumber64, encodeNumber.
  case_decide; [done|].
  apply encodeNumber64_loop_exact; [apply log2_fuel|]; lia.
Qed.

Lemma decode_step64_exact (r : Z) (c : ascii) :
  0 ≤ r → c ∈ alphabet → decode_step r c < 2 ^ 53 →
  decode_step64 (Some r) c = Some (decode_step r c).
Proof.
  intros Hr Hc Hlt. destruct (indexOf_char_at c Hc) as [Hi _].
  unfold decode_step64, decode_step in *. rewrite base_eq in *.
  cbn [mbind option_bind]. rewrite round64_small by lia.
  cbn [mbind option_bind]. by rewrite round64_small by lia.
Qed.

Lemma decode_fold64_exact (s : str) (acc : Z) :
  Forall (.∈ alphabet) s → 0 ≤ acc →
  fold_left decode_step s acc < 2 ^ 53 →
  fold_left decode_step64 s (Some acc) = Some (fold_left decode_step s acc).
Proof.
  intros Hs. revert acc. induction Hs as [|c s Hc Hs IH]; intros acc Hacc Hlt.
  - done.
  - rewrite !fold_left_step in *.
    destruct (indexOf_char_at c Hc) as [Hi _].
    assert (0 ≤ decode_step acc c) as Hnn
      by (unfold decode_step; rewrite base_eq in *; lia).
    pose proof (decode_fold_ge s (decode_step acc c) Hs Hnn).
    rewrite decode_step64_exact by (done || lia). by apply IH.
Qed.

(** On digits whose value is below 2^53 the binary64 decoder computes the
    exact value. *)
Lemma decodeNumber64_exact (s : str) :
  Forall (.∈ alphabet) s → decodeNumber s < 2 ^ 53 →
  decodeNumber64 s = Some (decodeNumber s).
Proof.
  intros Hs Hlt. rewrite decodeNumber_fold in *. unfold decodeNumber64.
  by apply decode_fold64_exact.
Qed.

(** ** Direct strategy on any array of integers *)

Lemma decodeDirect_all_records (nums : list Z) :
  decodeDirect (nums ≫= number_record) = filter in_range nums.
Proof.
  unfold decodeDirect. induction nums as [|n nums IH]; [done|].
  cbn [mbind list_bind]. unfold number_record at 1.
  rewrite <-(assoc_L (++)). cbn [app].
  rewrite split_app by apply encodeNumber_no_SEP.
  cbn [List.filter]. rewrite filter_cons.
  destruct (decide (n < 0)) as [Hneg|Hnn].
  - rewrite encodeNumber_negative by done.
    change (nonempty []) with false. cbn iota. rewrite IH.
    rewrite decide_False; [done|]. unfold in_range. lia.
  - unfold nonempty at 1. rewrite bool_decide_true.
    + cbn [mbind list_bind]. rewrite IH. unfold decode_part.
      rewrite decode_encode by lia.
      destruct (decide (in_range n)) as [Hr|Hr].
      * by rewrite decide_True by exact Hr.
      * by rewrite decide_False by exact Hr.
    + pose proof (encodeNumber_nonempty n ltac:(lia)).
      destruct (encodeNumber n); [done|simpl; lia].
Qed.

(** ** Run-length strategy on a range of consecutive numbers *)

Lemma runs_loop_consecutive (m : nat) (prev start length : Z)
    (runs : list (Z * Z)) :
  runs_loop prev (seqZ (prev + 1) (Z.of_nat m)) start length runs
  = runs ++ [(start, length + Z.of_nat m)].
Proof.
  revert prev length. induction m as [|m IH]; intros prev length.
  - cbn [runs_loop]. rewrite seqZ_nil by done. cbn [runs_loop].
    by rewrite Z.add_0_r.
  - rewrite seqZ_cons by lia. cbn [runs_loop].
    rewrite decide_True by done.
    replace (Z.pred (Z.of_nat (S m))) with (Z.of_nat m) by lia.
    replace (Z.succ (prev + 1)) with (prev + 1 + 1) by lia.
    rewrite IH. do 3 f_equal. lia.
Qed.

Lemma StronglySorted_seqZ (a n : Z) : StronglySorted Z.le (seqZ a n).
Proof.
  destruct (decide (0 ≤ n)) as [Hn|Hn]; [|rewrite seqZ_nil by lia; constructor].
  rewrite <-(Z2Nat.id n) by done. generalize (Z.to_nat n). clear n Hn.
  intros m. revert a. induction m as [|m IH]; intros a.
  - rewrite seqZ_nil by done. constructor.
  - rewrite seqZ_cons by lia. constructor.
    + replace (Z.pred (Z.of_nat (S m))) with (Z.of_nat m) by lia. apply IH.
    + apply Forall_seqZ. lia.
Qed.

(** ** The outputs of the encoders do not depend on the order of the array *)

Lemma encodeRunLength_perm (l1 l2 : list Z) :
  l1 ≡ₚ l2 → encodeRunLength l1 = encodeRunLength l2.
Proof.
  intros Hperm. unfold encodeRunLength.
  rewrite (sort_numbers_proper l1 l2 Hperm).
  assert (length l1 = length l2) as Hlen by by rewrite Hperm.
  rewrite Hlen. case_decide as Hnil; [|done].
  apply nil_length_inv in Hnil as ->.
  by apply Permutation_nil_r in Hperm as ->.
Qed.

(** ** Payloads without a separator *)

Lemma decodeRunLength_parts_no_SEP (parts : list str) :
  Forall (λ p, SEP ∉ p) parts → List.filter nonempty parts ≫= decode_run = [].
Proof.
  induction 1 as [|p parts Hp Hparts IH]; [done|].
  cbn [List.filter]. destruct (nonempty p); [|done].
  cbn [mbind list_bind]. rewrite IH. unfold decode_run.
  by rewrite split_notin.
Qed.

Lemma split_parts_subset (sep c : ascii) (s : str) :
  c ∉ s → Forall (λ p, c ∉ p) (split sep s).
Proof.
  induction s as [|x s IH]; intros Hc.
  - repeat constructor. apply not_elem_of_nil.
  - apply not_elem_of_cons in Hc as [Hx Hc]. cbn [split].
    specialize (IH Hc). case_decide.
    + constructor; [apply not_elem_of_nil|done].
    + destruct (split sep s) as [|h t]; inv IH.
      * repeat constructor. rewrite not_elem_of_cons. split; [done|].
        apply not_elem_of_nil.
      * constructor; [|done]. by rewrite not_elem_of_cons.
Qed.

(** ** Bit-packed strategy on any array of integers *)

Lemma occurrences_app (v : Z) (a b : list Z) :
  occurrences v (a ++ b) = occurrences v a + occurrences v b.
Proof. unfold occurrences. rewrite filter_app, length_app. lia. Qed.

Lemma occurrences_replicate (v k : Z) (n : nat) :
  occurrences v (replicate n k) = if decide (k = v) then Z.of_nat n else 0.
Proof.
  induction n as [|n IH]; [by case_decide|].
  cbn [replicate]. rewrite occurrences_cons, IH. case_decide; lia.
Qed.

Lemma occurrences_perm (v : Z) (a b : list Z) :
  a ≡ₚ b → occurrences v a = occurrences v b.
Proof. intros Hab. unfold occurrences. by rewrite Hab. Qed.

Lemma occurrences_filter (v : Z) (xs : list Z) :
  occurrences v (filter in_range xs)
  = if decide (in_range v) then occurrences v xs else 0.
Proof.
  induction xs as [|x xs IH]; [by case_decide|].
  rewrite filter_cons, occurrences_cons.
  destruct (decide (in_range x)) as [Hx|Hx].
  - rewrite occurrences_cons, IH. repeat case_decide; subst; done || lia.
  - rewrite IH. repeat case_decide; subst; done || lia.
Qed.

Lemma freq_fold_filter (xs : list Z) (m : gmap Z Z) :
  fold_left freq_step xs m = fold_left freq_step (filter in_range xs) m.
Proof.
  revert m. induction xs as [|x xs IH]; intros m; [done|].
  rewrite filter_cons. cbn [fold_left].
  destruct (decide (in_range x)) as [Hx|Hx]; [apply IH|].
  rewrite <-IH. f_equal. unfold freq_step. by rewrite decide_False by exact Hx.
Qed.

Lemma freq_of_lookup_any (xs : list Z) (v : Z) :
  freq_of xs !! v
  = if decide (in_range v ∧ occurrences v xs ≠ 0) then Some (occurrences v xs)
    else None.
Proof.
  unfold freq_of. rewrite freq_fold_filter.
  rewrite freq_fold_lookup.
  2:{ apply Forall_forall. intros x Hx.
      by apply list_elem_of_filter in Hx as [? _]. }
  rewrite occurrences_filter, lookup_empty. cbn [default].
  repeat case_decide; try done; try tauto; try (f_equal; lia).
Qed.

Lemma freq_of_nonneg (xs : list Z) : map_Forall (λ _ c, 0 ≤ c) (freq_of xs).
Proof.
  intros k c. rewrite freq_of_lookup_any. case_decide; [|done].
  intros [= <-]. apply occurrences_nonneg.
Qed.

Lemma entries_of_keys (xs : list Z) :
  Forall (λ e : Z * Z, in_range e.1 ∧ 1 ≤ e.2) (entries_of xs).
Proof.
  unfold entries_of. rewrite merge_sort_Permutation.
  apply Forall_forall. intros [k c] Hin.
  apply elem_of_map_to_list in Hin. rewrite freq_of_lookup_any in Hin.
  case_decide as Hk; [|done]. injection Hin as <-.
  pose proof (occurrences_nonneg k xs). cbn [fst snd]. split; [tauto|lia].
Qed.

Lemma entry_record_clamp (entries : list (Z * Z)) :
  entries ≫= entry_record = (clamp_entry <$> entries) ≫= entry_record.
Proof.
  induction entries as [|e entries IH]; [done|].
  cbn [fmap list_fmap mbind list_bind]. rewrite <-IH. f_equal.
  unfold entry_record, clamp_entry. cbn [fst snd].
  by replace (Z.min (Z.min e.2 255) 255) with (Z.min e.2 255) by lia.
Qed.

Lemma clamp_entries_good (entries : list (Z * Z)) :
  Forall (λ e : Z * Z, in_range e.1 ∧ 1 ≤ e.2) entries →
  Forall good_entry (clamp_entry <$> entries).
Proof.
  intros Hentries. apply Forall_fmap. eapply Forall_impl; [done|].
  intros [k c] [Hk Hc]. unfold compose, good_entry, clamp_entry.
  cbn [fst snd] in *. split; [done|lia].
Qed.

Lemma decodeBitPacking_zero (packedData : str) :
  decodeBitPacking (encodeNumber 0 ++ [SEP] ++ packedData) = [].
Proof.
  unfold decodeBitPacking.
  pose proof (encodeNumber_nonempty 0 ltac:(lia)) as Hne.
  rewrite decide_False by (by destruct (encodeNumber 0)).
  cbn [app]. rewrite indexOf_first by apply encodeNumber_no_SEP.
  rewrite decide_False by lia.
  rewrite slice_take_drop by (rewrite ?length_app; lia).
  rewrite Z.sub_0_r, Nat2Z.id. cbn [Z.to_nat drop]. rewrite drop_0.
  rewrite take_app_length, decode_encode by lia.
  by rewrite decide_True.
Qed.

(** What the decoder makes of the payload of [encodeBitPacking]: the
    entries with their counts clamped to 255, expanded. *)
Lemma bitPacking_decoded (xs : list Z) :
  decodeBitPacking (payload (encodeBitPacking xs).1)
  = sort_numbers ((clamp_entry <$> entries_of xs) ≫= expand_entry).
Proof.
  unfold payload. destruct (decide (length xs = 0%nat)) as [Hnil|Hne].
  { apply nil_length_inv in Hnil as ->. reflexivity. }
  rewrite bitPacking_payload, slice_from_1 by done.
  destruct (entries_of xs) as [|e es] eqn:Hentries.
  { apply decodeBitPacking_zero. }
  rewrite <-Hentries.
  rewrite decodeBitPacking_payload by (rewrite Hentries, length_cons; lia).
  f_equal. rewrite entry_record_clamp.
  destruct (chunks_unpack ((clamp_entry <$> entries_of xs) ≫= entry_record))
    as [pad ->].
  rewrite <-(length_fmap clamp_entry (entries_of xs)).
  apply (decode_entries _ [] (replicate pad false) 0); [|done|done].
  apply clamp_entries_good, entries_of_keys.
Qed.

Lemma occurrences_expand_map (m : gmap Z Z) (v : Z) :
  map_Forall (λ _ c, 0 ≤ c) m →
  occurrences v ((clamp_entry <$> map_to_list m) ≫= expand_entry)
  = match m !! v with Some c => Z.min c 255 | None => 0 end.
Proof.
  induction m as [|k c m Hk IH] using map_ind; intros Hm.
  - by rewrite map_to_list_empty, lookup_empty.
  - apply map_Forall_insert in Hm as [Hc Hm]; [|done].
    rewrite (occurrences_perm _ _
      ((clamp_entry <$> ((k, c) :: map_to_list m)) ≫= expand_entry)).
    2:{ by rewrite map_to_list_insert. }
    cbn [fmap list_fmap mbind list_bind]. rewrite occurrences_app, IH by done.
    unfold expand_entry at 1. unfold clamp_entry. cbn [fst snd].
    rewrite occurrences_replicate.
    destruct (decide (k = v)) as [->|Hne].
    + rewrite lookup_insert_eq, Hk. lia.
    + rewrite lookup_insert_ne by done. lia.
Qed.

(** ** The padding of the packed bits, and the declared entry count *)

Lemma chunks_loop_unpack_pad (fuel : nat) (bitString : list bool) (i : Z)
    (chunks : list (option ascii)) :
  0 ≤ i → Z.of_nat (length bitString) - i ≤ Z.of_nat fuel →
  ∃ pad, (pad < 6)%nat ∧ (Z.of_nat (length bitString) ≤ i → pad = 0%nat)
         ∧ unpack (join (chunks_loop fuel bitString i chunks))
           = unpack (join chunks) ++ drop (Z.to_nat i) bitString
             ++ replicate pad false.
Proof.
  revert i chunks. induction fuel as [|fuel IH]; intros i chunks Hi Hfuel;
    cbn [chunks_loop].
  - exists 0%nat. split; [lia|]. split; [done|].
    rewrite drop_ge by lia. by rewrite !app_nil_r.
  - destruct (decide (i < Z.of_nat (length bitString))) as [Hlt|Hge].
    + destruct (IH (i + 6) (chunks ++ [char_at alphabet (parseInt2
        (padEnd 6 (slice bitString i (i + 6))))]))
        as (pad & Hpad & Hzero & Heq); [lia|lia|].
      rewrite Heq, join_app, unpack_app.
      rewrite slice_clamped by lia.
      replace (Z.to_nat (i + 6 - i)) with 6%nat by lia.
      replace (Z.to_nat (i + 6)) with (Z.to_nat i + 6)%nat by lia.
      rewrite <-drop_drop.
      assert (0 < length (drop (Z.to_nat i) bitString))%nat as Hrest.
      { rewrite length_drop. lia. }
      set (rest := drop (Z.to_nat i) bitString) in *.
      rewrite unpack_chunk.
      2:{ unfold padEnd. rewrite length_app, length_replicate, length_take. lia. }
      unfold padEnd.
      destruct (decide (6 ≤ length rest)%nat) as [Hlong|Hshort].
      * exists pad. split; [done|]. split; [lia|].
        rewrite length_take, Nat.min_l by done.
        rewrite Nat.sub_diag. cbn [replicate]. rewrite app_nil_r.
        rewrite <-!(assoc_L (++)). f_equal.
        by rewrite (assoc_L (++)), take_drop.
      * exists (6 - length rest)%nat. split; [lia|]. split; [lia|].
        rewrite Hzero.
        2:{ unfold rest in Hshort. rewrite length_drop in Hshort. lia. }
        rewrite take_ge, drop_ge by lia. cbn [app replicate].
        by rewrite !app_nil_r.
    + exists 0%nat. split; [lia|]. split; [done|].
      rewrite drop_ge by lia. by rewrite !app_nil_r.
Qed.

Lemma chunks_unpack_pad (bitString : list bool) :
  ∃ pad, (pad < 6)%nat
         ∧ unpack (join (chunks_loop (length bitString) bitString 0 []))
           = bitString ++ replicate pad false.
Proof.
  destruct (chunks_loop_unpack_pad (length bitString) bitString 0 [])
    as (pad & Hpad & _ & Heq); [lia|lia|].
  exists pad. split; [done|]. by rewrite Heq.
Qed.

Lemma length_entry_record (entry : Z * Z) :
  good_entry entry → length (entry_record entry) = 17%nat.
Proof.
  intros [[Hlo Hhi] Hcount]. unfold entry_record.
  rewrite length_app, !length_padStart; [done| | | |].
  - unfold bitsPerCount; lia.
  - change (2 ^ Z.of_nat bitsPerCount) with 256. lia.
  - unfold bitsPerNumber; lia.
  - change (2 ^ Z.of_nat bitsPerNumber) with 512. lia.
Qed.

Lemma length_entry_records (entries : list (Z * Z)) :
  Forall good_entry entries →
  length (entries ≫= entry_record) = (17 * length entries)%nat.
Proof.
  induction 1 as [|e entries He Hentries IH]; [done|].
  cbn [mbind list_bind]. rewrite length_app, IH, length_entry_record by done.
  simpl. lia.
Qed.

(** A record that starts past the last complete one is skipped. *)
Lemma decode_entry_beyond (bitString : list bool) (i : Z) :
  Z.of_nat (length bitString) < (i + 1) * 17 → decode_entry bitString i = [].
Proof.
  intros Hlen. unfold decode_entry. cbn zeta.
  change (Z.of_nat bitsPerNumber) with 9. change (Z.of_nat bitsPerCount) with 8.
  by rewrite decide_False by lia.
Qed.

Lemma bind_one {A B} (f : A → list B) (x : A) : [x] ≫= f = f x.
Proof. cbn [mbind list_bind]. apply app_nil_r. Qed.

Lemma bind_all_nil {A B} (f : A → list B) (l : list A) :
  Forall (λ x, f x = []) l → l ≫= f = [].
Proof.
  induction 1 as [|x l Hx Hl IH]; [done|].
  cbn [mbind list_bind]. by rewrite Hx, IH.
Qed.

Lemma decode_entries_declared (entries : list (Z * Z)) (pad : nat) (n : Z) :
  Forall good_entry entries → (pad < 17)%nat → 0 ≤ n →
  seqZ 0 n ≫= decode_entry ((entries ≫= entry_record) ++ replicate pad false)
  = take (Z.to_nat n) entries ≫= expand_entry.
Proof.
  intros Hgood Hpad Hn.
  destruct (decide (n ≤ Z.of_nat (length entries))) as [Hle|Hgt].
  - assert (Z.of_nat (length (take (Z.to_nat n) entries)) = n) as Hlen
      by (rewrite length_take; lia).
    rewrite <-(take_drop (Z.to_nat n) entries) at 1.
    rewrite bind_app, <-(assoc_L (++)).
    set (pre := take (Z.to_nat n) entries) in *. rewrite <-Hlen.
    apply (decode_entries pre [] _ 0); [|done|done].
    by apply Forall_take.
  - pose proof (decode_entries entries [] (replicate pad false) 0 Hgood
      eq_refl ltac:(done)) as Hfirst.
    cbn [app] in Hfirst.
    assert (seqZ 0 n = seqZ 0 (Z.of_nat (length entries))
                       ++ seqZ (0 + Z.of_nat (length entries))
                            (n - Z.of_nat (length entries))) as ->
      by (rewrite <-seqZ_app by lia; f_equal; lia).
    rewrite bind_app, Hfirst, take_ge by lia.
    rewrite (bind_all_nil (decode_entry _)); [by rewrite app_nil_r|].
    apply Forall_forall. intros i Hi. apply elem_of_seqZ in Hi.
    apply decode_entry_beyond.
    rewrite length_app, length_replicate, length_entry_records by done. lia.
Qed.

(** ** The characters and the length of the bit-packed encoding *)

Lemma chunk_in_alphabet (bitString : list bool) (i : Z) :
  0 ≤ i < Z.of_nat (length bitString) →
  ∃ c, char_at alphabet (parseInt2 (padEnd 6 (slice bitString i (i + 6))))
       = Some c ∧ c ∈ alphabet.
Proof.
  intros Hi. destruct (chunk_value (padEnd 6 (slice bitString i (i + 6))))
    as [Hv _].
  { rewrite slice_clamped by lia. unfold padEnd.
    rewrite length_app, length_replicate, length_take. lia. }
  destruct (char_at_alphabet (parseInt2 (padEnd 6 (slice bitString i (i + 6)))))
    as (c & Hc & Hin & _); [rewrite base_eq; lia|].
  by exists c.
Qed.

Lemma chunks_loop_join (fuel : nat) (bitString : list bool) (i : Z)
    (chunks : list (option ascii)) :
  0 ≤ i → Z.of_nat (length bitString) - i ≤ Z.of_nat fuel →
  ∃ packed, join (chunks_loop fuel bitString i chunks) = join chunks ++ packed
            ∧ Forall (.∈ alphabet) packed
            ∧ Z.of_nat (length packed)
              = (Z.max 0 (Z.of_nat (length bitString) - i) + 5) `div` 6.
Proof.
  revert i chunks. induction fuel as [|fuel IH]; intros i chunks Hi Hfuel;
    cbn [chunks_loop].
  - exists []. rewrite app_nil_r. split; [done|]. split; [done|].
    rewrite Z.max_l by lia. done.
  - destruct (decide (i < Z.of_nat (length bitString))) as [Hlt|Hge].
    + destruct (chunk_in_alphabet bitString i) as (c & -> & Hc); [lia|].
      destruct (IH (i + 6) (chunks ++ [Some c]))
        as (packed & -> & Hpacked & Hlen); [lia|lia|].
      exists (c :: packed). rewrite join_app, <-(assoc_L (++)).
      split; [done|]. split; [by constructor|].
      rewrite length_cons, Nat2Z.inj_succ, Hlen.
      clear Hlen. Z.div_mod_to_equations. lia.
    + exists []. rewrite app_nil_r. split; [done|]. split; [done|].
      rewrite Z.max_l by lia. done.
Qed.

Lemma entries_of_length (xs : list Z) :
  length (entries_of xs) = size (list_to_set (filter in_range xs) : gset Z).
Proof.
  unfold entries_of. rewrite merge_sort_Permutation, length_map_to_list.
  rewrite <-size_dom. f_equal. apply set_eq. intros k.
  rewrite elem_of_dom, elem_of_list_to_set, list_elem_of_filter.
  rewrite freq_of_lookup_any. case_decide as Hk.
  - split; [|by eexists]. intros _. destruct Hk as [Hr Hocc].
    split; [done|]. apply occurrences_elem.
    pose proof (occurrences_nonneg k xs). lia.
  - split; [by intros [? [=]]|]. intros [Hr Hin]. destruct Hk.
    split; [done|]. intros Hz.
    apply list_elem_of_split in Hin as (l1 & l2 & ->).
    rewrite occurrences_app, occurrences_cons, decide_True in Hz by done.
    pose proof (occurrences_nonneg k l1). pose proof (occurrences_nonneg k l2).
    lia.
Qed.

(** ** The shape of the three encodings *)

Lemma direct_shape (xs : list Z) :
  (encodeDirect xs).1 = "D"%char :: (sort_numbers xs ≫= number_record).
Proof. unfold encodeDirect. cbn [fst]. by rewrite fold_encode_one. Qed.

Lemma runLength_shape (xs : list Z) :
  length xs ≠ 0%nat →
  ∃ runs, (encodeRunLength xs).1 = "R"%char :: (runs ≫= run_record).
Proof.
  intros Hne. unfold encodeRunLength. rewrite decide_False by done.
  destruct (sort_numbers xs) as [|first rest].
  - exists [(-1, 1)]. cbn [fst mbind list_bind]. unfold run_record.
    cbn [fst snd]. rewrite (encodeNumber_negative (-1)) by lia.
    by rewrite app_nil_r.
  - eexists. cbn [fst]. by rewrite fold_encode_run.
Qed.

Lemma bitPacking_shape (xs : list Z) :
  length xs ≠ 0%nat →
  ∃ packed,
    (encodeBitPacking xs).1
    = "B"%char :: encodeNumber (Z.of_nat (length (entries_of xs)))
        ++ [SEP] ++ packed
    ∧ Forall (.∈ alphabet) packed
    ∧ Z.of_nat (length packed)
      = (17 * Z.of_nat (length (entries_of xs)) + 5) `div` 6.
Proof.
  intros Hne. rewrite bitPacking_payload by done.
  destruct (chunks_loop_join (length (entries_of xs ≫= entry_record))
    (entries_of xs ≫= entry_record) 0 []) as (packed & -> & Hin & Hlen);
    [lia|lia|].
  exists packed. split; [done|]. split; [done|]. rewrite Hlen.
  rewrite entry_record_clamp, length_entry_records
    by apply clamp_entries_good, entries_of_keys.
  rewrite length_fmap. f_equal. lia.
Qed.

Lemma payload_chars_alphabet (s : str) :
  Forall (.∈ alphabet) s → Forall payload_char s.
Proof. intros Hs. eapply Forall_impl; [done|]. intros c Hc. by left. Qed.

Lemma payload_char_SEP : Forall payload_char [SEP].
Proof. apply Forall_singleton. right. by left. Qed.

Lemma payload_char_TERM : Forall payload_char [TERM].
Proof. apply Forall_singleton. right. by right. Qed.

Lemma run_records_chars (runs : list (Z * Z)) :
  Forall payload_char (runs ≫= run_record).
Proof.
  rewrite Forall_bind. apply Forall_forall. intros r _.
  unfold compose, run_record. rewrite !Forall_app.
  split; [apply payload_chars_alphabet, encodeNumber_alphabet|].
  split; [apply payload_char_SEP|].
  split; [apply payload_chars_alphabet, encodeNumber_alphabet|].
  apply payload_char_TERM.
Qed.

Lemma number_records_chars (nums : list Z) :
  Forall payload_char (nums ≫= number_record).
Proof.
  rewrite Forall_bind. apply Forall_forall. intros n _.
  unfold compose, number_record. rewrite Forall_app.
  split; [apply payload_chars_alphabet, encodeNumber_alphabet|].
  apply payload_char_SEP.
Qed.

(** The candidates [serialize] chooses from. *)
Lemma serialize_cases (numbers : option (list Z)) :
  (serialize numbers).1 = ["E"%char]
  ∨ ∃ xs, numbers = Some xs ∧ length xs ≠ 0%nat
          ∧ ((serialize numbers).1 = (encodeDirect xs).1
             ∨ (serialize numbers).1 = (encodeRunLength xs).1
             ∨ (serialize numbers).1 = (encodeBitPacking xs).1).
Proof.
  destruct numbers as [xs|]; [|by left].
  destruct (decide (length xs = 0%nat)) as [Hnil|Hne].
  { left. unfold serialize. by rewrite decide_True. }
  right. exists xs. split; [done|]. split; [done|].
  rewrite serialize_nonempty by done. cbn [fst].
  destruct (shortest_cases (encodeDirect xs).1 (encodeRunLength xs).1
    (encodeBitPacking xs).1) as [(-> & _)|[(-> & _)|(-> & _)]]; auto.
Qed.

Lemma occurrences_le_length (x : Z) (xs : list Z) :
  occurrences x xs ≤ Z.of_nat (length xs).
Proof. unfold occurrences. pose proof (length_filter (λ y, y = x) xs). lia. Qed.

Lemma in_range_values_bound (xs : list Z) :
  (size (list_to_set (filter in_range xs) : gset Z) ≤ 300)%nat.
Proof.
  etrans; [apply (subseteq_size _ (list_to_set (seqZ 1 300)))|].
  - intros k. rewrite !elem_of_list_to_set, list_elem_of_filter, elem_of_seqZ.
    unfold in_range. lia.
  - by rewrite size_list_to_set, length_seqZ by apply NoDup_seqZ.
Qed.

Lemma encodeNumber_length_small (n : Z) :
  0 ≤ n < 8281 → (1 ≤ length (encodeNumber n) ≤ 2)%nat.
Proof.
  intros Hn. destruct (decide (n = 0)) as [->|Hne].
  { assert (length (encodeNumber 0) = 1%nat) as -> by (by vm_compute). lia. }
  destruct (decide (n < 91)).
  - rewrite (encodeNumber_digits_length 0); [lia|]. rewrite base_eq.
    change (91 ^ Z.of_nat 0) with 1. change (91 ^ Z.of_nat 1) with 91. lia.
  - rewrite (encodeNumber_digits_length 1); [lia|]. rewrite base_eq.
    change (91 ^ Z.of_nat 1) with 91. change (91 ^ Z.of_nat 2) with 8281. lia.
Qed.

Lemma length_number_records (nums : list Z) :
  Forall in_range nums →
  (length (nums ≫= number_record) ≤ 3 * length nums)%nat.
Proof.
  induction 1 as [|n nums [Hlo Hhi] Hnums IH]; [done|].
  cbn [mbind list_bind]. unfold number_record at 1.
  rewrite !length_app, length_cons.
  pose proof (encodeNumber_length_small n ltac:(lia)). simpl. lia.
Qed.

Lemma packed_of_payload (n : Z) (packedData : str) :
  packed_of (encodeNumber n ++ [SEP] ++ packedData) = packedData.
Proof.
  unfold packed_of. cbn [app].
  rewrite indexOf_first by apply encodeNumber_no_SEP.
  rewrite slice_from_drop by (rewrite length_app, length_cons; lia).
  replace (Z.to_nat (Z.of_nat (length (encodeNumber n)) + 1))
    with (length (encodeNumber n) + 1)%nat by lia.
  rewrite drop_app_add. cbn [drop]. apply drop_0.
Qed.

Lemma every_from_spec (i : nat) (a b : list Z) :
  every_from i a b = true ↔ ∀ j n, a !! j = Some n → b !! (i + j)%nat = Some n.
Proof.
  revert i. induction a as [|x a IH]; intros i; cbn [every_from].
  - split; [|done]. intros _ j n Hj. by rewrite lookup_nil in Hj.
  - rewrite andb_true_iff, bool_decide_eq_true, IH. split.
    + intros [Hx Ha] [|j] n Hj; simpl in Hj.
      * injection Hj as <-. by rewrite Nat.add_0_r.
      * rewrite <-Nat.add_succ_comm. by apply Ha.
    + intros Hall. split.
      * rewrite <-(Nat.add_0_r i). by apply Hall.
      * intros j n Hj. rewrite Nat.add_succ_comm. by apply Hall.
Qed.

Lemma every_from_refl (a : list Z) : every_from 0 a a = true.
Proof. apply every_from_spec. by intros j n Hj. Qed.

(** * The claims *)

(** C1. For every array [S] of distinct integers of the range 1..300,
    [deserialize (serialize S)] returns, and what it returns is, as a set,
    [S], whichever candidate [serialize] picks. *)
Theorem roundtrip_for_sets (S : list Z) :
  NoDup S → Forall in_range S →
  ∃ out, deserialize (Some (serialize (Some S)).1) = Return out
         ∧ (list_to_set out : gset Z) = list_to_set S.
Proof.
  intros Hnd HS. exists (sort_numbers S). split.
  - apply serialize_roundtrip; [done|].
    intros x. pose proof (occurrences_NoDup x S Hnd). lia.
  - apply set_eq. intros x. rewrite !elem_of_list_to_set.
    by rewrite sort_numbers_perm.
Qed.

Lemma roundtrip_for_sets_witness :
  NoDup [3; 1; 300] ∧ Forall in_range [3; 1; 300] ∧
  ∃ out, deserialize (Some (serialize (Some [3; 1; 300])).1) = Return out
         ∧ (list_to_set out : gset Z) = list_to_set [3; 1; 300].
Proof.
  assert (NoDup [3; 1; 300]) as Hnd.
  { repeat constructor; rewrite ?elem_of_cons, ?elem_of_nil; lia. }
  assert (Forall in_range [3; 1; 300]) as Hr.
  { repeat constructor; lia. }
  split; [exact Hnd|]. split; [exact Hr|].
  exact (roundtrip_for_sets [3; 1; 300] Hnd Hr).
Defined.

(** C2. On 300 copies of the value 7 [serialize] picks the bit-packed
    candidate, six characters long, whose count field holds 255 at most:
    [deserialize] then returns 255 copies of 7, not 300. *)
Theorem serialize_300_copies_saturates :
  (serialize (Some (replicate 300 7))).1
    = ["B"; "034"; ","; "!"; "Z"; "a"]%char
  ∧ (encodeBitPacking (replicate 300 7)).1
    = (serialize (Some (replicate 300 7))).1
  ∧ length (encodeDirect (replicate 300 7)).1 = 601%nat
  ∧ deserialize (Some (encodeDirect (replicate 300 7)).1)
    = Return (replicate 300 7)
  ∧ deserialize (Some (serialize (Some (replicate 300 7))).1)
    = Return (replicate 255 7).
Proof. repeat split; by vm_compute. Qed.

(** C3, as the code has it. Decoding the run-length encoding of an array
    of non-negative integers below 2^53 gives the array sorted ascending,
    repeated values with their multiplicities: a repeated value ends a run
    and starts the next one. *)
Theorem runLength_keeps_multiplicities (xs : list Z) :
  Forall (λ x, 0 ≤ x < 2 ^ 53) xs →
  decodeRunLength (slice_from (encodeRunLength xs).1 1) = sort_numbers xs
  ∧ decodeRunLength (slice_from (encodeRunLength xs).1 1) ≡ₚ xs.
Proof.
  intros Hxs. rewrite runLength_roundtrip.
  - split; [done|apply sort_numbers_perm].
  - eapply Forall_impl; [done|]. intros x Hx. cbn beta in Hx. lia.
Qed.

Lemma runLength_keeps_multiplicities_witness :
  Forall (λ x, 0 ≤ x < 2 ^ 53) [2; 1; 1] ∧
  decodeRunLength (slice_from (encodeRunLength [2; 1; 1]).1 1)
  = sort_numbers [2; 1; 1]
  ∧ decodeRunLength (slice_from (encodeRunLength [2; 1; 1]).1 1) ≡ₚ [2; 1; 1].
Proof.
  assert (Forall (λ x, 0 ≤ x < 2 ^ 53) [2; 1; 1]) as H
    by (repeat constructor; lia).
  split; [exact H|]. exact (runLength_keeps_multiplicities [2; 1; 1] H).
Defined.

(** C3, as stated, fails: [1; 1; 2] has a repeated value, and decoding its
    run-length encoding gives [1; 1; 2]. *)
Lemma runLength_repeated_value_kept :
  ¬ NoDup [1; 1; 2]
  ∧ (encodeRunLength [1; 1; 2]).1
    = ["R"; "034"; ","; "034"; ";"; "034"; ","; "#"; ";"]%char
  ∧ decodeRunLength (slice_from (encodeRunLength [1; 1; 2]).1 1) = [1; 1; 2].
Proof.
  split; [|split; by vm_compute].
  intros Hnd. apply NoDup_cons in Hnd as [Hin _]. apply Hin. left.
Qed.

(** C4. The alphabet of the constructor has 91 characters, not 64: the 93
    characters of the codes 33..125 without ',' and ';'. The base of the
    scalar codec is 91, and 64 is encoded as one character. *)
Theorem alphabet_has_91_symbols :
  length alphabet = 91%nat ∧ base = 91
  ∧ encodeNumber 64 = ["c"%char]
  ∧ alphabet = "!"%char :: "034"%char :: list_ascii_of_string
      "#$%&'()*+-./0123456789:<=>?@ABCDEFGHIJKLMNOPQRSTUVWXYZ[\]^_`abcdefghijklmnopqrstuvwxyz{|}".
Proof. repeat split; by vm_compute. Qed.

(** C5. On a non-empty array [serialize] returns one of the three
    candidates, none of them is shorter, and on equal lengths the direct
    candidate wins over both others and the run-length candidate over the
    bit-packed one. *)
Theorem serialize_picks_first_shortest (numbers : list Z) :
  numbers ≠ [] →
  let direct := (encodeDirect numbers).1 in
  let runLength := (encodeRunLength numbers).1 in
  let bitPacking := (encodeBitPacking numbers).1 in
  let result := (serialize (Some numbers)).1 in
  (length result ≤ length direct)%nat
  ∧ (length result ≤ length runLength)%nat
  ∧ (length result ≤ length bitPacking)%nat
  ∧ (result = direct
     ∨ (result = runLength ∧ (length runLength < length direct)%nat)
     ∨ (result = bitPacking ∧ (length bitPacking < length direct)%nat
        ∧ (length bitPacking < length runLength)%nat)).
Proof.
  intros Hne. cbn zeta. rewrite serialize_nonempty by by destruct numbers.
  cbn [fst].
  destruct (shortest_cases (encodeDirect numbers).1 (encodeRunLength numbers).1
    (encodeBitPacking numbers).1) as [(-> & ? & ?)|[(-> & ? & ?)|(-> & ? & ?)]].
  - repeat split; [lia..|]. by left.
  - repeat split; [lia..|]. right. by left.
  - repeat split; [lia..|]. right. by right.
Qed.

Lemma serialize_picks_first_shortest_witness :
  [1; 1; 2] ≠ [] ∧
  let direct := (encodeDirect [1; 1; 2]).1 in
  let runLength := (encodeRunLength [1; 1; 2]).1 in
  let bitPacking := (encodeBitPacking [1; 1; 2]).1 in
  let result := (serialize (Some [1; 1; 2])).1 in
  (length result ≤ length direct)%nat
  ∧ (length result ≤ length runLength)%nat
  ∧ (length result ≤ length bitPacking)%nat
  ∧ (result = direct
     ∨ (result = runLength ∧ (length runLength < length direct)%nat)
     ∨ (result = bitPacking ∧ (length bitPacking < length direct)%nat
        ∧ (length bitPacking < length runLength)%nat)).
Proof.
  assert ([1; 1; 2] ≠ @nil Z) as H by discriminate.
  split; [exact H|]. exact (serialize_picks_first_shortest [1; 1; 2] H).
Defined.

(** C6, as the code has it. The scalar codec round-trips on the integers
    a binary64 number holds exactly: for [0 ≤ n < 2^53], [encodeNumber n]
    returns digits of the alphabet, the first symbol alone for 0, and
    [decodeNumber] gives [n] back. [decodeNumber] evaluates the digits left
    to right as [result * base + digit], each operation rounded to
    binary64; on these numbers nothing is rounded, and the exact-integer
    codec computes the same. *)
Theorem scalar_codec_roundtrip (n : Z) :
  0 ≤ n < 2 ^ 53 →
  ∃ s, encodeNumber64 n = Some s ∧ decodeNumber64 s = Some n
       ∧ s = encodeNumber n ∧ decodeNumber s = n
       ∧ Forall (.∈ alphabet) s
       ∧ (n = 0 → s = take 1 alphabet)
       ∧ ∀ (t : str) (c : ascii),
           decodeNumber64 (t ++ [c]) = decode_step64 (decodeNumber64 t) c.
Proof.
  intros Hn. exists (encodeNumber n).
  split; [by apply encodeNumber64_exact|].
  assert (decodeNumber (encodeNumber n) = n) as Hrt by (apply decode_encode; lia).
  split.
  { rewrite decodeNumber64_exact; [by rewrite Hrt|apply encodeNumber_alphabet|].
    rewrite Hrt. lia. }
  split; [done|]. split; [done|].
  split; [apply encodeNumber_alphabet|].
  split; [by intros ->|].
  intros t c. unfold decodeNumber64. by rewrite fold_left_app.
Qed.

Lemma scalar_codec_roundtrip_witness :
  0 ≤ 300 < 2 ^ 53 ∧
  ∃ s, encodeNumber64 300 = Some s ∧ decodeNumber64 s = Some 300
       ∧ s = encodeNumber 300 ∧ decodeNumber s = 300
       ∧ Forall (.∈ alphabet) s
       ∧ (300 = 0 → s = take 1 alphabet)
       ∧ ∀ (t : str) (c : ascii),
           decodeNumber64 (t ++ [c]) = decode_step64 (decodeNumber64 t) c.
Proof.
  assert (0 ≤ 300 < 2 ^ 53) as H by lia.
  split; [exact H|]. exact (scalar_codec_roundtrip 300 H).
Defined.

(** C6, as stated, fails: 2^53 + 62 is a binary64 number, and decoding
    what [encodeNumber] writes for it gives 2^53 + 64. *)
Lemma scalar_codec_roundtrip_fails :
  round64 (2 ^ 53 + 62) = Some (2 ^ 53 + 62)
  ∧ ∃ s, encodeNumber64 (2 ^ 53 + 62) = Some s
         ∧ decodeNumber64 s = Some (2 ^ 53 + 64)
         ∧ decodeNumber64 s ≠ Some (2 ^ 53 + 62).
Proof.
  split; [by vm_compute|]. eexists. split; [by vm_compute|].
  split; by vm_compute.
Qed.

(** C7. A non-empty string whose first character is none of 'E', 'R', 'B',
    'D' makes [deserialize] throw the invalid-encoding error, which is the
    outcome of the call; the empty string, [null] and 'E' make it return
    the empty array. *)
Theorem deserialize_unknown_marker (method : ascii) (data : str) :
  method ∉ markers →
  deserialize (Some (method :: data)) = Throw InvalidEncoding
  ∧ deserialize (Some []) = Return []
  ∧ deserialize None = Return []
  ∧ deserialize (Some ["E"%char]) = Return [].
Proof.
  intros Hm. split; [|done]. unfold markers in Hm.
  rewrite !not_elem_of_cons in Hm. destruct Hm as (HE & HR & HB & HD & _).
  cbn [deserialize]. repeat case_decide; congruence.
Qed.

Lemma deserialize_unknown_marker_witness :
("X"%char ∉ markers) ∧
  deserialize (Some ("X"%char :: ["7"%char])) = Throw InvalidEncoding
  ∧ deserialize (Some []) = Return []
  ∧ deserialize None = Return []
  ∧ deserialize (Some ["E"%char]) = Return [].
Proof.
  assert ("X"%char ∉ markers) as H.
  { unfold markers. rewrite !not_elem_of_cons. repeat split; try discriminate.
    apply not_elem_of_nil. }
  split; [exact H|]. exact (deserialize_unknown_marker "X"%char ["7"%char] H).
Defined.

(** C8. [serialize] on a non-empty array leaves the caller's array sorted
    ascending, with the elements it had: the run-length encoder sorts the
    array it is given in place, the direct encoder leaves its array as it
    was. *)
Theorem serialize_sorts_callers_array (numbers : list Z) :
  numbers ≠ [] →
  ∃ after,
    (serialize (Some numbers)).2 = Some after
    ∧ StronglySorted Z.le after ∧ after ≡ₚ numbers
    ∧ (encodeRunLength numbers).2 = after
    ∧ (encodeDirect numbers).2 = numbers.
Proof.
  intros Hne. assert (length numbers ≠ 0%nat) as Hlen by by destruct numbers.
  exists (sort_numbers numbers). rewrite serialize_nonempty by done.
  split; [done|]. split; [apply sort_numbers_sorted|].
  split; [apply sort_numbers_perm|].
  split; [by apply encodeRunLength_array|done].
Qed.

Lemma serialize_sorts_callers_array_witness :
  [3; 1; 2] ≠ [] ∧
  ∃ after,
    (serialize (Some [3; 1; 2])).2 = Some after
    ∧ StronglySorted Z.le after ∧ after ≡ₚ [3; 1; 2]
    ∧ (encodeRunLength [3; 1; 2]).2 = after
    ∧ (encodeDirect [3; 1; 2]).2 = [3; 1; 2].
Proof.
  assert ([3; 1; 2] ≠ @nil Z) as H by discriminate.
  split; [exact H|]. exact (serialize_sorts_callers_array [3; 1; 2] H).
Defined.

(** C9. [decodeNumber] does not fail on a character outside the alphabet:
    the failed lookup counts as the digit -1. Such a character alone, ','
    for one, decodes to the negative number -1, and after digits [s] whose
    value times the base stays below 2^53 it takes 1 off that product. *)
Theorem decodeNumber_outside_alphabet (s : str) (c : ascii) :
  c ∉ alphabet →
  indexOf alphabet c = -1
  ∧ decodeNumber64 [c] = Some (-1) ∧ decodeNumber [c] = -1
  ∧ decodeNumber64 [SEP] = Some (-1) ∧ decodeNumber [SEP] = -1
  ∧ (Forall (.∈ alphabet) s → decodeNumber s * base < 2 ^ 53 →
     decodeNumber64 (s ++ [c]) = Some (decodeNumber s * base - 1)).
Proof.
  intros Hc. assert (indexOf alphabet c = -1) as Hi
    by by apply indexOf_from_notin.
  assert (∀ r, 0 ≤ r → r * base < 2 ^ 53 →
            decode_step64 (Some r) c = Some (r * base - 1)) as Hstep.
  { intros r Hr Hlt. unfold decode_step64. rewrite Hi. rewrite base_eq in *.
    cbn [mbind option_bind]. rewrite round64_small by lia.
    cbn [mbind option_bind]. by rewrite round64_small by lia. }
  split; [done|]. split.
  { unfold decodeNumber64. rewrite fold_left_step.
    rewrite Hstep by (rewrite ?base_eq; lia). cbn [fold_left].
    by rewrite Z.mul_0_l. }
  split.
  { rewrite <-(app_nil_l [c]), decodeNumber_snoc, Hi.
    change (decodeNumber []) with 0. lia. }
  split; [by vm_compute|]. split; [by vm_compute|].
  intros Hs Hlt. pose proof (decodeNumber_nonneg s Hs) as Hnn.
  unfold decodeNumber64. rewrite fold_left_app.
  fold (decodeNumber64 s). rewrite decodeNumber64_exact.
  - cbn [fold_left]. by apply Hstep.
  - done.
  - rewrite base_eq in Hlt. lia.
Qed.

Lemma decodeNumber_outside_alphabet_witness :
  (SEP ∉ alphabet) ∧
  indexOf alphabet SEP = -1
  ∧ decodeNumber64 [SEP] = Some (-1) ∧ decodeNumber [SEP] = -1
  ∧ decodeNumber64 [SEP] = Some (-1) ∧ decodeNumber [SEP] = -1
  ∧ (Forall (.∈ alphabet) [] → decodeNumber [] * base < 2 ^ 53 →
     decodeNumber64 ([] ++ [SEP]) = Some (decodeNumber [] * base - 1)).
Proof.
  split; [exact alphabet_no_SEP|].
  exact (decodeNumber_outside_alphabet [] SEP alphabet_no_SEP).
Defined.

(** C10. Every number [decodeDirect] and [decodeBitPacking] return lies in
    1..300, on every payload; [decodeRunLength] has no such check, and
    [deserialize] returns 300 and 301 for the 'R'-tagged record of the run
    of length 2 from 300. *)
Theorem decoders_range_check :
  (∀ data, Forall in_range (decodeDirect data))
  ∧ (∀ data, Forall in_range (decodeBitPacking data))
  ∧ deserialize (Some (["R"%char] ++ encodeNumber 300 ++ [SEP]
                       ++ encodeNumber 2 ++ [TERM]))
    = Return [300; 301]
  ∧ ¬ in_range 301.
Proof.
  split; [|split; [|split]].
  - intros data. unfold decodeDirect. rewrite Forall_bind.
    apply Forall_forall. intros part _. unfold compose, decode_part.
    cbn beta zeta. case_decide; [|constructor].
    constructor; [done|constructor].
  - intros data. unfold decodeBitPacking. cbn zeta.
    repeat case_decide; try done.
    apply sort_numbers_Forall. rewrite Forall_bind.
    apply Forall_forall. intros i _. unfold compose.
    apply decode_entry_range.
  - by vm_compute.
  - unfold in_range. lia.
Qed.

(** * Further theorems *)

(** X1. For an array of numbers of the range 1..300 in which no value
    occurs more than 255 times, repeated values allowed, [deserialize] of
    [serialize] returns the array sorted ascending: the same numbers with
    the same multiplicities. *)
Theorem roundtrip_for_multisets (xs : list Z) :
  Forall in_range xs → (∀ x, occurrences x xs ≤ 255) →
  ∃ out, deserialize (Some (serialize (Some xs)).1) = Return out
         ∧ out ≡ₚ xs ∧ StronglySorted Z.le out.
Proof.
  intros Hxs Hocc. exists (sort_numbers xs).
  split; [by apply serialize_roundtrip|].
  split; [apply sort_numbers_perm|apply sort_numbers_sorted].
Qed.

Lemma roundtrip_for_multisets_witness :
  Forall in_range [1; 1; 2; 2; 3] ∧ (∀ x, occurrences x [1; 1; 2; 2; 3] ≤ 255) ∧
  ∃ out, deserialize (Some (serialize (Some [1; 1; 2; 2; 3])).1) = Return out
         ∧ out ≡ₚ [1; 1; 2; 2; 3] ∧ StronglySorted Z.le out.
Proof.
  assert (Forall in_range [1; 1; 2; 2; 3]) as Hr.
  { repeat constructor; lia. }
  assert (∀ x, occurrences x [1; 1; 2; 2; 3] ≤ 255) as Hocc.
  { intros x. pose proof (occurrences_le_length x [1; 1; 2; 2; 3]) as Hle.
    simpl in Hle. lia. }
  split; [exact Hr|]. split; [exact Hocc|].
  exact (roundtrip_for_multisets [1; 1; 2; 2; 3] Hr Hocc).
Defined.

(** X2. Whatever the array, [null] included, the string [serialize]
    returns is a marker followed by characters of the alphabet and the
    delimiters ',' and ';' only. *)
Theorem serialize_output_shape (numbers : option (list Z)) :
  ∃ marker data,
    (serialize numbers).1 = marker :: data
    ∧ marker ∈ markers ∧ Forall payload_char data.
Proof.
  destruct (serialize_cases numbers)
    as [->|(xs & -> & Hne & [->|[->| ->]])].
  - exists "E"%char, []. split; [done|]. split; [|done]. unfold markers. left.
  - rewrite direct_shape. eexists _, _. split; [done|].
    split; [|apply number_records_chars]. unfold markers.
    rewrite !elem_of_cons. tauto.
  - destruct (runLength_shape xs Hne) as [runs ->]. eexists _, _.
    split; [done|]. split; [|apply run_records_chars]. unfold markers.
    rewrite !elem_of_cons. tauto.
  - destruct (bitPacking_shape xs Hne) as (packed & -> & Hpacked & _).
    eexists _, _. split; [done|]. split.
    + unfold markers. rewrite !elem_of_cons. tauto.
    + rewrite !Forall_app.
      split; [apply payload_chars_alphabet, encodeNumber_alphabet|].
      split; [apply payload_char_SEP|by apply payload_chars_alphabet].
Qed.

(** X3. [deserialize] never throws on a string [serialize] returned,
    whatever the array. *)
Theorem deserialize_serialize_returns (numbers : option (list Z)) :
  ∃ out, deserialize (Some (serialize numbers).1) = Return out.
Proof.
  destruct (serialize_cases numbers)
    as [->|(xs & -> & Hne & [->|[->| ->]])].
  - by eexists.
  - rewrite direct_shape, deserialize_D. by eexists.
  - destruct (runLength_shape xs Hne) as [runs ->].
    rewrite deserialize_R. by eexists.
  - destruct (bitPacking_shape xs Hne) as (packed & -> & _).
    rewrite deserialize_B. by eexists.
Qed.

(** X4. The string [serialize] returns and the array it leaves do not
    depend on the order of the elements of the array. *)
Theorem serialize_order_independent (xs ys : list Z) :
  xs ≡ₚ ys → serialize (Some xs) = serialize (Some ys).
Proof.
  intros Hperm. destruct (decide (length xs = 0%nat)) as [Hnil|Hne].
  { apply nil_length_inv in Hnil as ->.
    by apply Permutation_nil_l in Hperm as <-. }
  rewrite !serialize_nonempty by (by rewrite <-?Hperm).
  rewrite (encodeRunLength_perm xs ys), (encodeBitPacking_perm xs ys),
    (encodeDirect_perm xs ys), (sort_numbers_proper xs ys) by done.
  done.
Qed.

Lemma serialize_order_independent_witness :
  [3; 1; 2] ≡ₚ [1; 3; 2] ∧ serialize (Some [3; 1; 2]) = serialize (Some [1; 3; 2]).
Proof.
  assert ([3; 1; 2] ≡ₚ [1; 3; 2]) as H by apply perm_swap.
  split; [exact H|]. exact (serialize_order_independent _ _ H).
Defined.

(** X5. The string [serialize] returns has at most 854 characters,
    whatever the array and however long it is: the bit-packed candidate has
    one marker, a count of at most two digits, a separator and 17 bits for
    each of the at most 300 distinct values of the range. *)
Theorem serialize_length_bounded (numbers : option (list Z)) :
  (length (serialize numbers).1 ≤ 854)%nat.
Proof.
  destruct numbers as [xs|]; [|simpl; lia].
  destruct (decide (length xs = 0%nat)) as [Hnil|Hne].
  { unfold serialize. rewrite decide_True by done. simpl. lia. }
  rewrite serialize_nonempty by done. cbn [fst].
  destruct (shortest_cases (encodeDirect xs).1 (encodeRunLength xs).1
    (encodeBitPacking xs).1) as [(-> & _ & Hle)|[(-> & _ & Hle)|(-> & _)]].
  all: try (etrans; [exact Hle|]).
  all: destruct (bitPacking_shape xs Hne) as (packed & -> & _ & Hlen).
  all: pose proof (in_range_values_bound xs) as Hk.
  all: rewrite <-entries_of_length in Hk.
  all: pose proof (encodeNumber_length_small
         (Z.of_nat (length (entries_of xs))) ltac:(lia)).
  all: rewrite length_cons, !length_app, length_cons.
  all: assert (Z.of_nat (length packed) ≤ 850)
         by (rewrite Hlen; Z.div_mod_to_equations; lia).
  all: simpl; lia.
Qed.

(** X6. For an array of numbers of the range 1..300 the string [serialize]
    returns has at most one character plus three for each element. *)
Theorem serialize_length_linear (xs : list Z) :
  Forall in_range xs →
  (length (serialize (Some xs)).1 ≤ 1 + 3 * length xs)%nat.
Proof.
  intros Hxs. destruct (decide (length xs = 0%nat)) as [Hnil|Hne].
  { unfold serialize. rewrite decide_True by done. simpl. lia. }
  rewrite serialize_nonempty by done. cbn [fst].
  assert (length (encodeDirect xs).1 ≤ 1 + 3 * length xs)%nat as Hd.
  { rewrite direct_shape, length_cons.
    pose proof (length_number_records (sort_numbers xs)
      (sort_numbers_Forall _ _ Hxs)) as Hlen.
    rewrite sort_numbers_length in Hlen. lia. }
  destruct (shortest_cases (encodeDirect xs).1 (encodeRunLength xs).1
    (encodeBitPacking xs).1) as [(-> & _)|[(-> & ? & _)|(-> & ? & _)]]; lia.
Qed.

Lemma serialize_length_linear_witness :
  Forall in_range [1; 300; 17] ∧
  (length (serialize (Some [1; 300; 17]%Z)).1
   ≤ 1 + 3 * length [1; 300; 17]%Z)%nat.
Proof.
  assert (Forall in_range [1; 300; 17]) as H by (repeat constructor; lia).
  split; [exact H|]. exact (serialize_length_linear _ H).
Defined.

(** X8. For every non-negative [n], [encodeNumber n] is a non-empty string
    of digits of the alphabet without a leading zero digit, the zero digit
    alone for 0 apart. *)
Theorem encodeNumber_writes_canonical (n : Z) :
  0 ≤ n → canonical (encodeNumber n).
Proof. apply encodeNumber_canonical. Qed.

Lemma encodeNumber_writes_canonical_witness :
  0 ≤ 300 ∧ canonical (encodeNumber 300).
Proof.
  assert (0 ≤ 300) as H by lia.
  split; [exact H|]. exact (encodeNumber_writes_canonical 300 H).
Defined.

(** X9. On such a string whose value is below 2^53, [decodeNumber]
    computes that value without rounding and [encodeNumber] undoes it: with
    X8 and the round trip of the scalar codec, the two are inverse
    bijections between the integers from 0 to 2^53 - 1 and these strings. *)
Theorem encodeNumber_decodeNumber (s : str) :
  canonical s → decodeNumber s < 2 ^ 53 →
  encodeNumber (decodeNumber s) = s ∧ 0 ≤ decodeNumber s
  ∧ decodeNumber64 s = Some (decodeNumber s)
  ∧ encodeNumber64 (decodeNumber s) = Some s.
Proof.
  intros Hs Hlt. pose proof (encode_decode s Hs) as Hed.
  pose proof (decodeNumber_nonneg s (proj1 Hs)) as Hnn.
  split; [done|]. split; [done|].
  split; [apply decodeNumber64_exact; [apply Hs|done]|].
  by rewrite encodeNumber64_exact, Hed by lia.
Qed.

Lemma encodeNumber_decodeNumber_witness :
  canonical ["$"; ">"]%char ∧ decodeNumber ["$"; ">"]%char < 2 ^ 53
  ∧ encodeNumber (decodeNumber ["$"; ">"]%char) = ["$"; ">"]%char
  ∧ 0 ≤ decodeNumber ["$"; ">"]%char
  ∧ decodeNumber64 ["$"; ">"]%char = Some (decodeNumber ["$"; ">"]%char)
  ∧ encodeNumber64 (decodeNumber ["$"; ">"]%char) = Some ["$"; ">"]%char.
Proof.
  assert (canonical ["$"; ">"]%char) as H.
  { split; [|by vm_compute]. apply (bool_decide_unpack _). by vm_compute. }
  assert (decodeNumber ["$"; ">"]%char < 2 ^ 53) as Hlt by (by vm_compute).
  split; [exact H|]. split; [exact Hlt|].
  exact (encodeNumber_decodeNumber _ H Hlt).
Defined.

(** X10. A number below 2^53 of [k + 1] digits in base 91, that is one
    from [91^k] up to [91^(k+1) - 1], is encoded in [k + 1] characters, in
    binary64 arithmetic as with exact integers. *)
Theorem encodeNumber_length (k : nat) (n : Z) :
  91 ^ Z.of_nat k ≤ n < 91 ^ Z.of_nat (S k) → n < 2 ^ 53 →
  length (encodeNumber n) = S k
  ∧ encodeNumber64 n = Some (encodeNumber n).
Proof.
  intros Hn Hlt. split.
  - revert Hn. rewrite <-base_eq. apply encodeNumber_digits_length.
  - apply encodeNumber64_exact.
    pose proof (Z.pow_pos_nonneg 91 (Z.of_nat k)). lia.
Qed.

Lemma encodeNumber_length_witness :
  91 ^ Z.of_nat 1 ≤ 300 < 91 ^ Z.of_nat 2 ∧ 300 < 2 ^ 53
  ∧ length (encodeNumber 300) = 2%nat
  ∧ encodeNumber64 300 = Some (encodeNumber 300).
Proof.
  assert (91 ^ Z.of_nat 1 ≤ 300 < 91 ^ Z.of_nat 2) as H by (simpl; lia).
  assert (300 < 2 ^ 53) as Hlt by lia.
  split; [exact H|]. split; [exact Hlt|].
  exact (encodeNumber_length 1 300 H Hlt).
Defined.

Lemma direct_keeps_the_range_aux (xs : list Z) :
  deserialize (Some (encodeDirect xs).1)
  = Return (filter in_range (sort_numbers xs)).
Proof.
  rewrite direct_shape, deserialize_D. f_equal. apply decodeDirect_all_records.
Qed.

(** X11. The direct strategy on any array of integers: decoding what
    [encodeDirect] wrote returns the elements of the range 1..300, sorted
    ascending, each as often as it occurs; the others are dropped. *)
Theorem direct_keeps_the_range (xs : list Z) :
  deserialize (Some (encodeDirect xs).1)
  = Return (filter in_range (sort_numbers xs)).
Proof. apply direct_keeps_the_range_aux. Qed.

Lemma bitPacking_saturates_aux (xs : list Z) :
  ∃ out, deserialize (Some (encodeBitPacking xs).1) = Return out
         ∧ StronglySorted Z.le out
         ∧ ∀ v, occurrences v out
                = if decide (in_range v) then Z.min (occurrences v xs) 255
                  else 0.
Proof.
  exists (decodeBitPacking (payload (encodeBitPacking xs).1)). split.
  { unfold payload. destruct (decide (length xs = 0%nat)) as [Hnil|Hne].
    - apply nil_length_inv in Hnil as ->. reflexivity.
    - rewrite bitPacking_payload by done. by rewrite slice_from_1, deserialize_B. }
  rewrite bitPacking_decoded. split; [apply sort_numbers_sorted|].
  intros v. rewrite (occurrences_perm _ _ _ (sort_numbers_perm _)).
  rewrite (occurrences_perm _ _
    ((clamp_entry <$> map_to_list (freq_of xs)) ≫= expand_entry)).
  2:{ unfold entries_of. by rewrite merge_sort_Permutation. }
  rewrite occurrences_expand_map by apply freq_of_nonneg.
  rewrite freq_of_lookup_any. pose proof (occurrences_nonneg v xs).
  repeat case_decide; try lia; try tauto.
  destruct (decide (occurrences v xs = 0)) as [->|]; [done|tauto].
Qed.

(** X12. The bit-packed strategy on any array of integers: decoding what
    [encodeBitPacking] wrote returns a sorted array in which a value of the
    range 1..300 occurs as often as in the input, but 255 times at most,
    and no other value occurs. *)
Theorem bitPacking_saturates (xs : list Z) :
  ∃ out, deserialize (Some (encodeBitPacking xs).1) = Return out
         ∧ StronglySorted Z.le out
         ∧ ∀ v, occurrences v out
                = if decide (in_range v) then Z.min (occurrences v xs) 255
                  else 0.
Proof. apply bitPacking_saturates_aux. Qed.

(** X13. The length of the bit-packed encoding of a non-empty array: the
    marker, the digits of the number [k] of distinct values of the range
    1..300, the separator, and one character for every 6 of the [17 * k]
    bits, the last group padded. *)
Theorem bitPacking_length (xs : list Z) :
  xs ≠ [] →
  let k := Z.of_nat (size (list_to_set (filter in_range xs) : gset Z)) in
  Z.of_nat (length (encodeBitPacking xs).1)
  = 2 + Z.of_nat (length (encodeNumber k)) + (17 * k + 5) `div` 6.
Proof.
  intros Hne. cbn zeta. rewrite <-entries_of_length.
  destruct (bitPacking_shape xs) as (packed & -> & _ & Hlen);
    [by destruct xs|].
  rewrite length_cons, !length_app, length_cons. cbn [length].
  rewrite <-Hlen. lia.
Qed.

Lemma bitPacking_length_witness :
  [7; 7; 300] ≠ [] ∧
  let k := Z.of_nat (size (list_to_set (filter in_range [7; 7; 300]) : gset Z)) in
  Z.of_nat (length (encodeBitPacking [7; 7; 300]).1)
  = 2 + Z.of_nat (length (encodeNumber k)) + (17 * k + 5) `div` 6.
Proof.
  assert ([7; 7; 300] ≠ @nil Z) as H by discriminate.
  split; [exact H|]. exact (bitPacking_length [7; 7; 300] H).
Defined.

(** X14. [decodeBitPacking] takes the declared entry count on trust up to
    the data it has: with the packed characters of [encodeBitPacking] and
    a declared count [n] with [0 < n < 2^53] it decodes the first [n]
    entries, and with a count that is too large it skips the records that
    are not there and returns what the genuine payload decodes to. *)
Theorem bitPacking_declared_count (xs : list Z) (n : Z) :
  xs ≠ [] → 0 < n < 2 ^ 53 →
  let data := payload (encodeBitPacking xs).1 in
  let forged := encodeNumber n ++ [SEP] ++ packed_of data in
  decodeBitPacking forged
  = sort_numbers
      (take (Z.to_nat n) (clamp_entry <$> entries_of xs) ≫= expand_entry)
  ∧ (Z.of_nat (length (entries_of xs)) ≤ n →
     decodeBitPacking forged = decodeBitPacking data).
Proof.
  intros Hne [Hn _]. cbn zeta.
  assert (decodeBitPacking (encodeNumber n ++ [SEP]
            ++ packed_of (payload (encodeBitPacking xs).1))
          = sort_numbers (take (Z.to_nat n) (clamp_entry <$> entries_of xs)
                          ≫= expand_entry)) as Heq.
  { unfold payload. rewrite bitPacking_payload by by destruct xs.
    rewrite slice_from_1, packed_of_payload.
    rewrite decodeBitPacking_payload by done. f_equal.
    rewrite entry_record_clamp.
    destruct (chunks_unpack_pad
      ((clamp_entry <$> entries_of xs) ≫= entry_record)) as (pad & Hpad & ->).
    apply decode_entries_declared; [|lia|lia].
    apply clamp_entries_good, entries_of_keys. }
  split; [done|]. intros Hlen. rewrite Heq, bitPacking_decoded.
  by rewrite take_ge by (rewrite length_fmap; lia).
Qed.

Lemma bitPacking_declared_count_witness :
  [7; 7; 300] ≠ [] ∧ 0 < 5 < 2 ^ 53 ∧
  let data := payload (encodeBitPacking [7; 7; 300]).1 in
  let forged := encodeNumber 5 ++ [SEP] ++ packed_of data in
  decodeBitPacking forged
  = sort_numbers
      (take (Z.to_nat 5) (clamp_entry <$> entries_of [7; 7; 300])
       ≫= expand_entry)
  ∧ (Z.of_nat (length (entries_of [7; 7; 300])) ≤ 5 →
     decodeBitPacking forged = decodeBitPacking data).
Proof.
  assert ([7; 7; 300] ≠ @nil Z) as H by discriminate.
  assert (0 < 5 < 2 ^ 53) as H5 by lia.
  split; [exact H|]. split; [exact H5|].
  exact (bitPacking_declared_count [7; 7; 300] 5 H H5).
Defined.

(** X15. An array that holds the [n > 0] consecutive numbers from [a] on,
    in any order, has the run-length encoding of one record: 'R', the
    start [a], ',', the length [n], ';'. *)
Theorem runLength_consecutive_range (xs : list Z) (a n : Z) :
  xs ≡ₚ seqZ a n → 0 < n →
  (encodeRunLength xs).1
  = ["R"%char] ++ encodeNumber a ++ [SEP] ++ encodeNumber n ++ [TERM].
Proof.
  intros Hperm Hn.
  rewrite (encodeRunLength_perm xs (seqZ a n) Hperm).
  unfold encodeRunLength.
  rewrite decide_False by (rewrite length_seqZ; lia).
  rewrite (sort_numbers_unique (seqZ a n) (seqZ a n))
    by (apply StronglySorted_seqZ || done).
  rewrite seqZ_cons by done.
  replace (Z.pred n) with (Z.of_nat (Z.to_nat (n - 1))) by lia.
  replace (Z.succ a) with (a + 1) by lia.
  rewrite runs_loop_consecutive. cbn [fst].
  rewrite fold_encode_run, app_nil_l, bind_one.
  unfold run_record. cbn [fst snd].
  by replace (1 + Z.of_nat (Z.to_nat (n - 1))) with n by lia.
Qed.

Lemma runLength_consecutive_range_witness :
  [3; 1; 2] ≡ₚ seqZ 1 3 ∧ 0 < 3 ∧
  (encodeRunLength [3; 1; 2]).1
  = ["R"%char] ++ encodeNumber 1 ++ [SEP] ++ encodeNumber 3 ++ [TERM].
Proof.
  assert ([3; 1; 2] ≡ₚ seqZ 1 3) as H.
  { change (seqZ 1 3) with [1; 2; 3]. apply (Permutation_cons_app [1; 2] []).
    done. }
  assert (0 < 3) as H3 by lia.
  split; [exact H|]. split; [exact H3|].
  exact (runLength_consecutive_range [3; 1; 2] 1 3 H H3).
Defined.

(** X16. A payload without the separator ',' holds no record for the
    run-length decoder and no entry count for the bit-packed decoder: both
    return the empty array. *)
Theorem separator_free_payload (data : str) :
  SEP ∉ data → decodeRunLength data = [] ∧ decodeBitPacking data = [].
Proof.
  intros Hsep. split.
  - unfold decodeRunLength. apply decodeRunLength_parts_no_SEP.
    by apply split_parts_subset.
  - unfold decodeBitPacking. case_decide; [done|].
    cbn zeta. unfold indexOf. by rewrite indexOf_from_notin, decide_True.
Qed.

Lemma separator_free_payload_witness :
  (SEP ∉ ["$"; ">"; ";"]%char)
  ∧ decodeRunLength ["$"; ">"; ";"]%char = []
  ∧ decodeBitPacking ["$"; ">"; ";"]%char = [].
Proof.
  assert (SEP ∉ ["$"; ">"; ";"]%char) as H.
  { rewrite !not_elem_of_cons. repeat split; try discriminate.
    apply not_elem_of_nil. }
  split; [exact H|]. exact (separator_free_payload _ H).
Defined.

(** X17. [runTest] reports [correct: true], and does not throw, for every
    array of numbers of the range 1..300 in which no value occurs more
    than 255 times. *)
Theorem runTest_reports_correct (numbers : list Z) :
  Forall in_range numbers → (∀ x, occurrences x numbers ≤ 255) →
  runTest_correct numbers = Return true.
Proof.
  intros Hr Hocc. unfold runTest_correct.
  pose proof (serialize_roundtrip numbers Hr Hocc) as Hrt.
  destruct (decide (length numbers = 0%nat)) as [Hnil|Hne].
  { apply nil_length_inv in Hnil as ->. reflexivity. }
  rewrite serialize_nonempty in * by done. cbn [fst] in Hrt. rewrite Hrt.
  cbn [default]. unfold id. by rewrite every_from_refl.
Qed.

Lemma runTest_reports_correct_witness :
  Forall in_range [1; 300] ∧ (∀ x, occurrences x [1; 300] ≤ 255) ∧
  runTest_correct [1; 300] = Return true.
Proof.
  assert (Forall in_range [1; 300]) as Hr by (repeat constructor; lia).
  assert (∀ x, occurrences x [1; 300] ≤ 255) as Hocc.
  { intros x. pose proof (occurrences_le_length x [1; 300]) as Hle.
    simpl in Hle. lia. }
  split; [exact Hr|]. split; [exact Hocc|].
  exact (runTest_reports_correct [1; 300] Hr Hocc).
Defined.

Lemma StronglySorted_filter_range (l : list Z) :
  StronglySorted Z.le l → StronglySorted Z.le (filter in_range l).
Proof.
  induction 1 as [|x l Hl IH Hx]; [constructor|].
  rewrite filter_cons. case_decide; [|done]. constructor; [done|].
  apply Forall_forall. intros y Hy. apply list_elem_of_filter in Hy as [_ Hy].
  by apply (proj1 (Forall_forall _ _) Hx).
Qed.

(** X19. The codec invents nothing and reorders in one way only: for an
    array of non-negative integers below 2^53, [deserialize] of [serialize]
    returns a sorted array in which no value occurs more often than in the input,
    and a value of the range 1..300 occurs as often as in the input or at
    least 255 times. *)
Theorem roundtrip_loses_only (xs : list Z) :
  Forall (λ x, 0 ≤ x < 2 ^ 53) xs →
  ∃ out, deserialize (Some (serialize (Some xs)).1) = Return out
         ∧ StronglySorted Z.le out
         ∧ ∀ v, occurrences v out ≤ occurrences v xs
                ∧ (in_range v →
                   Z.min (occurrences v xs) 255 ≤ occurrences v out).
Proof.
  intros Hxs. destruct (decide (length xs = 0%nat)) as [Hnil|Hne].
  { apply nil_length_inv in Hnil as ->. exists []. split; [reflexivity|].
    split; [constructor|]. intros v. split; [done|]. intros _.
    change (occurrences v []) with 0. lia. }
  rewrite serialize_nonempty by done. cbn [fst].
  destruct (shortest_cases (encodeDirect xs).1 (encodeRunLength xs).1
    (encodeBitPacking xs).1) as [(-> & _)|[(-> & _)|(-> & _)]].
  - rewrite direct_keeps_the_range_aux. eexists. split; [done|].
    split; [apply StronglySorted_filter_range, sort_numbers_sorted|].
    intros v. rewrite occurrences_filter.
    rewrite (occurrences_perm _ _ _ (sort_numbers_perm xs)).
    pose proof (occurrences_nonneg v xs). case_decide; [lia|tauto].
  - rewrite deserialize_runLength.
    2:{ done. }
    2:{ eapply Forall_impl; [done|]. intros x Hx. cbn beta in Hx. lia. }
    eexists. split; [done|]. split; [apply sort_numbers_sorted|].
    intros v. rewrite (occurrences_perm _ _ _ (sort_numbers_perm xs)). lia.
  - destruct (bitPacking_saturates_aux xs) as (out & -> & Hsorted & Hocc).
    exists out. split; [done|]. split; [done|].
    intros v. rewrite Hocc. pose proof (occurrences_nonneg v xs).
    case_decide; [lia|tauto].
Qed.

(** X20. The run-length decoder expands the records in the order it reads
    them, without sorting and without merging: for records of a start
    [≥ 0] and a length [≥ 1] that end at 2^53 at most and hold fewer than
    2^32 numbers in all, it returns the ranges one after the other. *)
Theorem runLength_decodes_in_record_order (runs : list (Z * Z)) :
  Forall bounded_run runs → total_length runs < 2 ^ 32 →
  deserialize (Some ("R"%char :: (runs ≫= run_record)))
  = Return (runs ≫= expand_run).
Proof.
  intros Hruns _. rewrite deserialize_R. f_equal.
  apply decodeRunLength_records.
  eapply Forall_impl; [done|]. intros r (Hs & Hl & _). by split.
Qed.

Lemma runLength_decodes_in_record_order_witness :
  Forall bounded_run [(5, 2); (1, 3); (2, 1)]
  ∧ total_length [(5, 2); (1, 3); (2, 1)] < 2 ^ 32
  ∧ deserialize (Some ("R"%char :: ([(5, 2); (1, 3); (2, 1)] ≫= run_record)))
    = Return ([(5, 2); (1, 3); (2, 1)] ≫= expand_run).
Proof.
  assert (Forall bounded_run [(5, 2); (1, 3); (2, 1)]) as H.
  { repeat constructor; simpl; lia. }
  assert (total_length [(5, 2); (1, 3); (2, 1)] < 2 ^ 32) as Ht
    by (by vm_compute).
  split; [exact H|]. split; [exact Ht|].
  exact (runLength_decodes_in_record_order _ H Ht).
Defined.

Lemma roundtrip_loses_only_witness :
  Forall (λ x, 0 ≤ x < 2 ^ 53) [0; 7; 7; 301] ∧
  ∃ out, deserialize (Some (serialize (Some [0; 7; 7; 301])).1) = Return out
         ∧ StronglySorted Z.le out
         ∧ ∀ v, occurrences v out ≤ occurrences v [0; 7; 7; 301]
                ∧ (in_range v →
                   Z.min (occurrences v [0; 7; 7; 301]) 255
                   ≤ occurrences v out).
Proof.
  assert (Forall (λ x, 0 ≤ x < 2 ^ 53) [0; 7; 7; 301]) as H
    by (repeat constructor; lia).
  split; [exact H|]. exact (roundtrip_loses_only _ H).
Defined.
